(** * Edition and library resolution: the get-package handler and the
      edition search path

    A shallow embedding of

    - [EditionManager] (package [org.enso.editions.updater]): the edition
      search path and the choice of edition provider;
    - [LibraryGetPackageHandler] (package
      [org.enso.languageserver.libraries.handler]): the one-shot actor that
      answers [library/getPackage];
    - the edition resolver the manager delegates to, which is described by the
      specification only.

    Finite maps, finite sets and list membership come from stdpp. *)

From Equations Require Import Equations.
From stdpp Require Import base decidable option list gmap strings.

#[local] Set Warnings "-clear-no-such-hyp".

(** ** Scala's [Try] and [Either.toTry] *)

Inductive Try (Throwable A : Type) :=
| Success (value : A)
| Failure (exception : Throwable).
Arguments Success {Throwable A} value.
Arguments Failure {Throwable A} exception.

Definition toTry {Throwable A : Type} (e : Throwable + A) : Try Throwable A :=
  match e with
  | inl exception => Failure exception
  | inr value => Success value
  end.

(** ** Scala's [Seq.distinct]

    [distinct] walks the sequence once with the set of elements already
    emitted and keeps an element the first time it is met. *)

Section Distinct.
Context {A : Type} `{EqDecision A}.

Fixpoint distinctFrom (seen : list A) (l : list A) : list A :=
  match l with
  | [] => []
  | x :: l' =>
      if decide (x ∈ seen) then distinctFrom seen l'
      else x :: distinctFrom (x :: seen) l'
  end.

Definition distinct (l : list A) : list A := distinctFrom [] l.
End Distinct.


(** ** Editions and their resolution *)

Module Editions.

(** Modelled from the spec: a repository entry of an edition document,
    [{name, url}]; the declaration is not among the files at hand. *)
Record Repository := { repositoryName : string; repositoryUrl : string }.

#[global] Instance Repository_eq_dec : EqDecision Repository.
Proof. solve_decision. Defined.

Section WithVersions.
(** [SemVer] is declared outside the files at hand; editions only store
    and compare versions. *)
Context {SemVer : Type} `{EqDecision SemVer}.

(** Modelled from the spec: a library entry of an edition document,
    [{namespace, name, version}]. *)
Record LibraryRequirement := {
  libraryNamespace : string;
  libraryName : string;
  libraryVersion : SemVer
}.

#[global] Instance LibraryRequirement_eq_dec : EqDecision LibraryRequirement.
Proof. solve_decision. Defined.

(** Modelled from the spec: [RawEdition], a partially specified edition
    with an optional parent name, an optional engine version and optional
    lists of repositories and libraries. *)
Record RawEdition := {
  parent : option string;
  engineVersion : option SemVer;
  repositories : option (list Repository);
  libraries : option (list LibraryRequirement)
}.

(** Modelled from the spec: [ResolvedEdition], a fully merged edition
    with no parent reference left. [None] as the engine version stands for
    "use the default". *)
Record ResolvedEdition := {
  resolvedEngineVersion : option SemVer;
  resolvedRepositories : list Repository;
  resolvedLibraries : list LibraryRequirement
}.

(** Modelled from the spec: the three failures of [resolve]. *)
Inductive EditionResolutionError :=
| EditionNotFound (editionName : string)
| EditionCycleDetected (editionName : string)
| EditionParseError (editionName : string).

(** Modelled from the spec: what the edition provider finds under a name,
    a configuration document that parses or one that does not; a name it
    does not find is absent from its search result. *)
Inductive Located :=
| Parsed (edition : RawEdition)
| Unparseable.

(** Modelled from the spec: the merge step of [EditionResolver.resolve],
    whose source is not among the files at hand. An explicit field of the
    child overrides the parent's; list-valued fields are concatenated
    child-then-parent and de-duplicated by equality, keeping the first
    occurrence. *)
Definition merge (raw : RawEdition) (parentResolved : ResolvedEdition)
  : ResolvedEdition :=
  {| resolvedEngineVersion :=
       match engineVersion raw with
       | Some v => Some v
       | None => resolvedEngineVersion parentResolved
       end;
     resolvedRepositories :=
       distinct (default [] (repositories raw)
                   ++ resolvedRepositories parentResolved);
     resolvedLibraries :=
       distinct (default [] (libraries raw)
                   ++ resolvedLibraries parentResolved) |}.

(** Modelled from the spec: a root edition (no parent) resolves to
    itself; its lists are de-duplicated, as every resolved edition's
    are. *)
Definition resolveRoot (raw : RawEdition) : ResolvedEdition :=
  {| resolvedEngineVersion := engineVersion raw;
     resolvedRepositories := distinct (default [] (repositories raw));
     resolvedLibraries := distinct (default [] (libraries raw)) |}.

(** A lookup that keeps the equation it was obtained from. *)
Definition lookupEdition (provider : gmap string Located) (name : string)
  : { found : option Located | provider !! name = found } :=
  exist _ (provider !! name) eq_refl.

(** Modelled from the spec: [EditionResolver.resolve], whose source is not
    among the files at hand. The parent is resolved first and the child
    merged over it; [visited] is the set of edition names on the current
    resolution path, and meeting one of them again is the cycle error,
    raised before any further lookup. The provider's search result is a
    finite map, so the names not yet visited shrink with every parent. *)
Equations? resolveFrom (provider : gmap string Located)
    (visited : gset string) (raw : RawEdition)
  : EditionResolutionError + ResolvedEdition
  by wf (size (dom provider ∖ visited)) lt :=
  resolveFrom provider visited raw with parent raw := {
    | None => inr (resolveRoot raw)
    | Some p with decide (p ∈ visited) := {
      | left _ => inl (EditionCycleDetected p)
      | right Hfresh with lookupEdition provider p := {
        | exist _ None _ => inl (EditionNotFound p)
        | exist _ (Some Unparseable) _ => inl (EditionParseError p)
        | exist _ (Some (Parsed parentRaw)) Hfound
            with resolveFrom provider ({[p]} ∪ visited) parentRaw := {
            | inl e => inl e
            | inr parentResolved => inr (merge raw parentResolved) } } } }.
Proof.
  apply subset_size. apply elem_of_dom_2 in Hfound. set_solver.
Qed.

(** Modelled from the spec: [resolve] starts with nothing visited. *)
Definition resolve (provider : gmap string Located) (raw : RawEdition)
  : EditionResolutionError + ResolvedEdition :=
  resolveFrom provider ∅ raw.

(** The ancestor path of an edition: the names met while walking up the
    parent references, each of them located and parsed. *)
Inductive AncestorPath (provider : gmap string Located)
  : RawEdition → list string → Prop :=
| AncestorPath_nil raw : AncestorPath provider raw []
| AncestorPath_cons raw p parentRaw names :
    parent raw = Some p →
    provider !! p = Some (Parsed parentRaw) →
    AncestorPath provider parentRaw names →
    AncestorPath provider raw (p :: names).
End WithVersions.

Arguments LibraryRequirement : clear implicits.
Arguments RawEdition : clear implicits.
Arguments ResolvedEdition : clear implicits.
Arguments Located : clear implicits.

End Editions.

(** ** [EditionManager]: search paths and the edition provider *)

Module EditionManager.

Definition Path := string.

(** [LanguageHome], of which only [editions] is used. *)
Record LanguageHome := { editions : Path }.

(** [distributionManager.paths]. *)
Record DistributionPaths := {
  editionSearchPaths : list Path;
  cachedEditions : Path
}.

(** The global configuration read by [GlobalConfigurationManager]. *)
Record GlobalConfig := { editionProviders : list string }.

(** A distribution manager, with the configuration that
    [new GlobalConfigurationManager(distributionManager).getConfig] reads
    for it. *)
Record DistributionManager := {
  paths : DistributionPaths;
  getConfig : GlobalConfig
}.

(** The two providers [makeEditionProvider] can build, with their
    constructor arguments. *)
Inductive EditionProvider :=
| UpdatingEditionProvider
    (searchPaths : list Path) (cachePath : Path) (sources : list string)
| FileSystemEditionProvider (searchPaths : list Path).

(** [languageHome.map(_.editions).toList]. *)
Definition languageHomeEditions (languageHome : option LanguageHome)
  : list Path :=
  option_list (editions <$> languageHome).

(** [resolveEdition] hands the raw edition to the edition resolver and
    turns its [Either] into a [Try]. *)
Definition resolveEdition {SemVer : Type} `{EqDecision SemVer}
    (editionProvider : gmap string (Editions.Located SemVer))
    (edition : Editions.RawEdition SemVer)
  : Try Editions.EditionResolutionError (Editions.ResolvedEdition SemVer) :=
  toTry (Editions.resolve editionProvider edition).

Definition getSearchPaths
    (distributionManager : DistributionManager)
    (languageHome : option LanguageHome) : list Path :=
  let paths_ :=
    languageHomeEditions languageHome
      ++ editionSearchPaths (paths distributionManager) in
  distinct paths_.

Definition makeEditionProvider
    (distributionManager : DistributionManager)
    (languageHome : option LanguageHome)
    (updating : bool) : EditionProvider :=
  let config := getConfig distributionManager in
  let searchPaths := getSearchPaths distributionManager languageHome in
  let cachePath := cachedEditions (paths distributionManager) in
  if updating then
    UpdatingEditionProvider searchPaths cachePath (editionProviders config)
  else
    let actualSearchPaths := distinct (searchPaths ++ [cachePath]) in
    FileSystemEditionProvider actualSearchPaths.

(** An [EditionManager] holds the edition provider it was built with. *)
Record Manager := { editionProvider : EditionProvider }.

(** [EditionManager.apply]: the manager over the non-updating provider;
    [languageHome] defaults to [None]. *)
Definition apply
    (distributionManager : DistributionManager)
    (languageHome : option LanguageHome) : Manager :=
  {| editionProvider :=
       makeEditionProvider distributionManager languageHome false |}.

End EditionManager.

(** ** [LibraryGetPackageHandler]: the [library/getPackage] request handler *)

Module LibraryGetPackageHandler.

(** Types the handler imports: their declarations are outside the files
    at hand, and the handler only passes their values around. *)
Class Imports := {
  Id : Type;                     (* org.enso.jsonrpc.Id *)
  Error : Type;                  (* org.enso.jsonrpc.Error *)
  SemVer : Type;                 (* org.enso.semver.SemVer *)
  Throwable : Type;
  LibraryPath : Type;            (* what findCachedLibrary returns *)
  ComponentGroup : Type;
  ExtendedComponentGroup : Type;
  LibraryComponentGroups : Type;
  MappedFailure : Type           (* what mapFailure returns *)
}.

Inductive ActorRef :=
| Self
| Actor (address : nat).

#[global] Instance ActorRef_eq_dec : EqDecision ActorRef.
Proof. solve_decision. Defined.

Record LibraryName := { namespace : string; name : string }.

#[global] Instance LibraryName_eq_dec : EqDecision LibraryName.
Proof. solve_decision. Defined.

(** [LibraryEntry.LibraryVersion]. *)
Inductive LibraryVersion :=
| LocalLibraryVersion
| PublishedLibraryVersion (version : string) (repositoryUrl : string).

(** [LibraryGetPackage.Params]. *)
Record Params := {
  paramsNamespace : string;
  paramsName : string;
  paramsVersion : LibraryVersion
}.

(** [LocalLibraryManagerProtocol.Failure]; the handler itself raises
    [InvalidSemverVersionError]. *)
Inductive LocalLibraryManagerFailure :=
| InvalidSemverVersionError (version : string).

(** [String.isEmpty]. *)
Definition isEmpty (s : string) : bool :=
  match s with
  | EmptyString => true
  | String _ _ => false
  end.

(** [Option.unless(cond)(a)]. *)
Definition unless {A : Type} (cond : bool) (a : A) : option A :=
  if cond then None else Some a.

Section Handler.
Context `{Imports}.

Record ComponentGroups := {
  newGroups : list ComponentGroup;
  extendedGroups : list ExtendedComponentGroup
}.

(** The package descriptor, as far as the handler reads it. *)
Record Config := {
  configNamespace : string;
  moduleName : string;
  configLicense : string;
  configComponentGroups : option ComponentGroups
}.

(** [LocalLibraryManagerProtocol.GetPackageResponse]. *)
Record GetPackageResponse := {
  libraryName : LibraryName;
  license : string;
  componentGroups : option ComponentGroups
}.

(** [LibraryGetPackage.Result]. *)
Record Result := {
  resultLicense : option string;
  resultComponentGroups : option LibraryComponentGroups
}.

(** What can reach the handler's mailbox. [Request] is the
    [LibraryGetPackage] request; [Unrelated] is any message that neither
    stage handles. *)
Inductive Message :=
| Request (id : Id) (params : Params)
| RequestTimeout
| PackageResponse (response : GetPackageResponse)
| ManagerFailure (failure : LocalLibraryManagerFailure)
| StatusFailure (exception : Throwable)
| Unrelated.

(** What the handler sends to other actors. *)
Inductive Payload :=
| GetPackage (libraryName : LibraryName)
| ResponseError (id : option Id) (error : Error)
| ResponseResult (id : Id) (result : Result)
| Mapped (failure : MappedFailure).

Record Sent := { recipient : ActorRef; payload : Payload }.

(** Reads of the local cache and calls to the remote repository. *)
Inductive IOEvent :=
| CacheLookup (libraryName : LibraryName) (version : SemVer)
| PackageRead (libraryPath : LibraryPath)
| RepositoryFetch (repositoryUrl : string)
    (libraryName : LibraryName) (version : SemVer).

Definition isRepositoryFetch (e : IOEvent) : bool :=
  match e with
  | RepositoryFetch _ _ _ => true
  | _ => false
  end.

Definition isCacheAccess (e : IOEvent) : bool :=
  match e with
  | CacheLookup _ _ | PackageRead _ => true
  | RepositoryFetch _ _ _ => false
  end.

(** The fetch-call counter. *)
Definition networkCalls (log : list IOEvent) : nat :=
  length (filter (λ e, isRepositoryFetch e = true) log).

(** The constructor parameters of the handler and the objects it calls:
    the semantic-version parser, the published-library cache and the
    files behind it, the remote repositories, and the mappers to
    JSON-RPC errors. *)
Class Environment := {
  localLibraryManager : ActorRef;
  SemVer_parse : string → Try Throwable SemVer;
  findCachedLibrary : LibraryName → SemVer → option LibraryPath;
  readPackage : LibraryPath → Try Throwable Config;
  fetchPackageConfig :
    string → LibraryName → SemVer → Try Throwable Config;
  fromComponentGroups :
    LibraryName → ComponentGroups → LibraryComponentGroups;
  mapFailure : LocalLibraryManagerFailure → MappedFailure;
  mapException : Throwable → Error;
  Errors_RequestTimeout : Error
}.

Context `{!Environment}.

(** *** Computations that log their reads and fetches *)

Definition IO (A : Type) : Type := list IOEvent → A * list IOEvent.

Definition IO_ret {A : Type} (a : A) : IO A := λ log, (a, log).

Definition IO_bind {A B : Type} (m : IO A) (k : A → IO B) : IO B :=
  λ log, let '(a, log') := m log in k a log'.

Definition perform {A : Type} (e : IOEvent) (a : A) : IO A :=
  λ log, (a, log ++ [e]).

#[local] Instance IO_mret : MRet IO := @IO_ret.
#[local] Instance IO_mbind : MBind IO := λ A B k m, IO_bind m k.

(** [Try.map]. *)
Definition Try_map {A B : Type} (f : A → B) (t : Try Throwable A)
  : Try Throwable B :=
  match t with
  | Success a => Success (f a)
  | Failure exception => Failure exception
  end.

(** A future, by what it completes with: [Future.successful],
    [Future.failed] and [toFuture]. *)
Definition Future (A : Type) : Type := Try Throwable A.

Definition responseOf (config : Config) : GetPackageResponse :=
  {| libraryName :=
       {| namespace := configNamespace config;
          name := moduleName config |};
     license := configLicense config;
     componentGroups := configComponentGroups config |}.

Definition getCachedPackage (libraryName : LibraryName) (version : SemVer)
  : IO (option (Try Throwable GetPackageResponse)) :=
  found ← perform (CacheLookup libraryName version)
            (findCachedLibrary libraryName version);
  match found with
  | Some libraryPath =>
      package ← perform (PackageRead libraryPath)
                  (readPackage libraryPath);
      mret (Some (Try_map responseOf package))
  | None => mret None
  end.

Definition fetchPublishedPackage (libraryName : LibraryName)
    (version : SemVer) (repositoryUrl : string)
  : IO (Future GetPackageResponse) :=
  config ← perform (RepositoryFetch repositoryUrl libraryName version)
             (fetchPackageConfig repositoryUrl libraryName version);
  mret (Try_map responseOf config).

Definition getOrFetchPublishedPackage (libraryName : LibraryName)
    (version : SemVer) (repositoryUrl : string)
  : IO (Future GetPackageResponse) :=
  cached ← getCachedPackage libraryName version;
  match cached with
  | Some response =>
      mret
        match response with
        | Failure exception => Failure exception
        | Success value => Success value
        end
  | None => fetchPublishedPackage libraryName version repositoryUrl
  end.

(** *** The actor

    [receive] starts as [requestStage] and [context.become]s
    [responseStage] with the request id and the requester's reference;
    [context.stop(self)] ends the actor. *)
Inductive Behavior :=
| requestStage
| responseStage (id : Id) (replyTo : ActorRef)
| stopped.

(** The one timer of the handler; [responseStage]'s [cancellable] is the
    handle on it. *)
Inductive Timer :=
| NotScheduled
| Scheduled
| Cancelled
| Fired.

Record Handler := {
  behavior : Behavior;
  mailbox : list (ActorRef * Message);     (* first in, first out *)
  timer : Timer;
  piped : list (Future GetPackageResponse); (* futures piped to self *)
  sent : list Sent;                        (* oldest first *)
  io : list IOEvent
}.

Definition initial : Handler :=
  {| behavior := requestStage; mailbox := []; timer := NotScheduled;
     piped := []; sent := []; io := [] |}.

(** [recipient ! payload]. *)
Definition tell (recipient : ActorRef) (payload : Payload) (h : Handler)
  : Handler :=
  {| behavior := behavior h; mailbox := mailbox h; timer := timer h;
     piped := piped h;
     sent := sent h ++ [{| recipient := recipient; payload := payload |}];
     io := io h |}.

(** [self ! message]. *)
Definition tellSelf (message : Message) (h : Handler) : Handler :=
  {| behavior := behavior h; mailbox := mailbox h ++ [(Self, message)];
     timer := timer h; piped := piped h; sent := sent h; io := io h |}.

(** [future pipeTo self]. *)
Definition pipeToSelf (future : Future GetPackageResponse) (h : Handler)
  : Handler :=
  {| behavior := behavior h; mailbox := mailbox h; timer := timer h;
     piped := piped h ++ [future]; sent := sent h; io := io h |}.

(** Runs a logging computation on the handler's log. *)
Definition performing {A : Type} (m : IO A) (h : Handler) : A * Handler :=
  let '(a, log) := m (io h) in
  (a, {| behavior := behavior h; mailbox := mailbox h; timer := timer h;
         piped := piped h; sent := sent h; io := log |}).

(** [context.system.scheduler.scheduleOnce(timeout, self, RequestTimeout)]. *)
Definition scheduleOnce (h : Handler) : Handler :=
  {| behavior := behavior h; mailbox := mailbox h; timer := Scheduled;
     piped := piped h; sent := sent h; io := io h |}.

(** [cancellable.cancel()]: a timer that has fired stays fired. *)
Definition cancel (h : Handler) : Handler :=
  {| behavior := behavior h; mailbox := mailbox h;
     timer := match timer h with
              | Scheduled => Cancelled
              | t => t
              end;
     piped := piped h; sent := sent h; io := io h |}.

(** [context.become]. *)
Definition become (b : Behavior) (h : Handler) : Handler :=
  {| behavior := b; mailbox := mailbox h; timer := timer h;
     piped := piped h; sent := sent h; io := io h |}.

(** [context.stop(self)]: what is left in the mailbox is never
    received. *)
Definition stop (h : Handler) : Handler :=
  {| behavior := stopped; mailbox := []; timer := timer h;
     piped := piped h; sent := sent h; io := io h |}.

Definition requestStage_receive (sender : ActorRef) (message : Message)
    (h : Handler) : Handler :=
  match message with
  | Request id params =>
      let libraryName :=
        {| namespace := paramsNamespace params;
           name := paramsName params |} in
      let h1 :=
        match paramsVersion params with
        | LocalLibraryVersion =>
            tell localLibraryManager (GetPackage libraryName) h
        | PublishedLibraryVersion version repositoryUrl =>
            match SemVer_parse version with
            | Success semVerVersion =>
                let '(future, h') :=
                  performing
                    (getOrFetchPublishedPackage
                       libraryName semVerVersion repositoryUrl) h in
                pipeToSelf future h'
            | _ =>
                tellSelf
                  (ManagerFailure (InvalidSemverVersionError version)) h
            end
        end in
      let h2 := scheduleOnce h1 in
      become (responseStage id sender) h2
  | _ => h
  end.

Definition responseStage_receive (id : Id) (replyTo : ActorRef)
    (message : Message) (h : Handler) : Handler :=
  match message with
  | RequestTimeout =>
      stop (tell replyTo (ResponseError (Some id) Errors_RequestTimeout) h)
  | PackageResponse
      {| libraryName := libraryName;
         license := license;
         componentGroups := componentGroups |} =>
      let result :=
        {| resultLicense := unless (isEmpty license) license;
           resultComponentGroups :=
             componentGroups ≫= λ groups,
               unless
                 (bool_decide (newGroups groups = [])
                  && bool_decide (extendedGroups groups = []))
                 (fromComponentGroups libraryName groups) |} in
      stop (cancel (tell replyTo (ResponseResult id result) h))
  | ManagerFailure failure =>
      stop (cancel (tell replyTo (Mapped (mapFailure failure)) h))
  | StatusFailure exception =>
      stop (cancel
              (tell replyTo
                 (ResponseError (Some id) (mapException exception)) h))
  | _ => h
  end.

Definition receive (sender : ActorRef) (message : Message) (h : Handler)
  : Handler :=
  match behavior h with
  | requestStage => requestStage_receive sender message h
  | responseStage id replyTo => responseStage_receive id replyTo message h
  | stopped => h
  end.

(** *** Scheduling

    What happens around the actor, one event at a time: a message from
    another actor arrives, the dispatcher completes the piped future, the
    scheduler's timer goes off, or the actor takes the next message of its
    mailbox. A stopped actor has no mailbox: what is sent to it is
    lost. *)
Inductive Event :=
| Deliver (sender : ActorRef) (message : Message)
| FutureCompletes
| TimerFires
| Receive.

Definition enqueue (sender : ActorRef) (message : Message) (h : Handler)
  : Handler :=
  match behavior h with
  | stopped => h
  | _ =>
      {| behavior := behavior h;
         mailbox := mailbox h ++ [(sender, message)];
         timer := timer h; piped := piped h; sent := sent h;
         io := io h |}
  end.

(** What [pipeTo] sends for a completed future. *)
Definition pipedMessage (outcome : Future GetPackageResponse) : Message :=
  match outcome with
  | Success response => PackageResponse response
  | Failure exception => StatusFailure exception
  end.

Definition step (h : Handler) (e : Event) : Handler :=
  match e with
  | Deliver sender message => enqueue sender message h
  | FutureCompletes =>
      match piped h with
      | [] => h
      | outcome :: rest =>
          enqueue Self (pipedMessage outcome)
            {| behavior := behavior h; mailbox := mailbox h;
               timer := timer h; piped := rest; sent := sent h;
               io := io h |}
      end
  | TimerFires =>
      match timer h with
      | Scheduled =>
          enqueue Self RequestTimeout
            {| behavior := behavior h; mailbox := mailbox h;
               timer := Fired; piped := piped h; sent := sent h;
               io := io h |}
      | _ => h
      end
  | Receive =>
      match mailbox h with
      | [] => h
      | (sender, message) :: rest =>
          receive sender message
            {| behavior := behavior h; mailbox := rest; timer := timer h;
               piped := piped h; sent := sent h; io := io h |}
      end
  end.

Definition run (h : Handler) (schedule : list Event) : Handler :=
  foldl step h schedule.

(** The handler serving one request: it is created for the request, which
    is the first message it receives. *)
Definition serve (sender : ActorRef) (id : Id) (params : Params)
    (schedule : list Event) : Handler :=
  run initial (Deliver sender (Request id params) :: Receive :: schedule).

Definition isReceive (e : Event) : bool :=
  match e with
  | Receive => true
  | _ => false
  end.

(** The responses among what the handler sent, oldest first: everything
    but the question it puts to the local library manager. *)
Definition isResponse (p : Payload) : bool :=
  match p with
  | GetPackage _ => false
  | _ => true
  end.

Definition responses (h : Handler) : list Sent :=
  filter (λ m, isResponse (payload m) = true) (sent h).

(** The request starts a lookup: it names the local library, or a
    published version that parses. *)
Definition lookupDispatched (params : Params) : Prop :=
  match paramsVersion params with
  | LocalLibraryVersion => True
  | PublishedLibraryVersion version _ =>
      match SemVer_parse version with
      | Success _ => True
      | Failure _ => False
      end
  end.
(** The messages [responseStage] has a case for. *)
Definition handled (message : Message) : bool :=
  match message with
  | RequestTimeout | PackageResponse _ | ManagerFailure _
  | StatusFailure _ => true
  | Request _ _ | Unrelated => false
  end.

Definition isRequestDelivery (e : Event) : bool :=
  match e with
  | Deliver _ (Request _ _) => true
  | _ => false
  end.

(** What the handler asked other actors, oldest first: the complement of
    [responses]. *)
Definition questions (h : Handler) : list Sent :=
  filter (λ m, isResponse (payload m) = false) (sent h).

(** [m] is a response to the request [id] of [replyTo]. The mapped manager
    failure is sent as the mapper returns it, without an id. *)
Definition answers (id : Id) (replyTo : ActorRef) (m : Sent) : Prop :=
  recipient m = replyTo
  ∧ match payload m with
    | ResponseError (Some id') _ => id' = id
    | ResponseResult id' _ => id' = id
    | Mapped _ => True
    | _ => False
    end.
(** The handler has responded once at most, and not at all while it is
    running. *)
Definition respondedOnce (h : Handler) : Prop :=
  (behavior h ≠ stopped → responses h = []) ∧ length (responses h) ≤ 1.

(** The handler still awaits the response for the request [id] of [sender],
    or has stopped after responses that answer it. *)
Definition answering (id : Id) (sender : ActorRef) (h : Handler) : Prop :=
  (behavior h = responseStage id sender ∧ responses h = [])
  ∨ (behavior h = stopped ∧ Forall (answers id sender) (responses h)).
(** The messages whose case in [responseStage] cancels the timer. *)
Definition cancelsTimer (message : Message) : bool :=
  match message with
  | PackageResponse _ | ManagerFailure _ | StatusFailure _ => true
  | Request _ _ | RequestTimeout | Unrelated => false
  end.
End Handler.

End LibraryGetPackageHandler.

(** ** Scenarios

    Concrete editions and a concrete handler environment, for the examples. *)

Module Scenarios.
Import Editions.

Definition repositoryA : Repository :=
  {| repositoryName := "A"; repositoryUrl := "https://a.example.org" |}.
Definition repositoryB : Repository :=
  {| repositoryName := "B"; repositoryUrl := "https://b.example.org" |}.
Definition repositoryC : Repository :=
  {| repositoryName := "C"; repositoryUrl := "https://c.example.org" |}.

(** The parent [P{engine=1.0, repos=[A,B]}]; versions are kept as text. *)
Definition editionP : RawEdition string :=
  {| parent := None; engineVersion := Some "1.0";
     repositories := Some [repositoryA; repositoryB];
     libraries := None |}.

(** The child [C{parent=P, repos=[B,C]}]. *)
Definition editionC : RawEdition string :=
  {| parent := Some "P"; engineVersion := None;
     repositories := Some [repositoryB; repositoryC];
     libraries := None |}.

Definition providerOfP : gmap string (Located string) :=
  {[ "P" := Parsed editionP ]}.

(** Two editions that name each other as parent, and a third that
    extends the first. *)
Definition editionLeft : RawEdition string :=
  {| parent := Some "right"; engineVersion := None;
     repositories := None; libraries := None |}.
Definition editionRight : RawEdition string :=
  {| parent := Some "left"; engineVersion := Some "2024.1.1";
     repositories := None; libraries := None |}.
Definition editionProject : RawEdition string :=
  {| parent := Some "left"; engineVersion := None;
     repositories := Some [repositoryA]; libraries := None |}.

Definition cyclicProvider : gmap string (Located string) :=
  <[ "left" := Parsed editionLeft ]> {[ "right" := Parsed editionRight ]}.
(** A handler environment: text for identifiers, versions, paths and
    errors; a cache that holds [Standard.Base 1.2.0] and a damaged
    [Standard.Broken 1.2.0]; a repository that serves [Standard.Table]
    with the licence [MIT] and no component groups. The parser is a stand-in
    that knows one version. *)
Module Server.
Import LibraryGetPackageHandler.

Definition imports : Imports :=
  {| Id := nat; Error := string; SemVer := string; Throwable := string;
     LibraryPath := string; ComponentGroup := string;
     ExtendedComponentGroup := string;
     LibraryComponentGroups := nat; MappedFailure := string |}.

#[local] Existing Instance imports.

Definition standardBase : LibraryName :=
  {| namespace := "Standard"; name := "Base" |}.
Definition standardBroken : LibraryName :=
  {| namespace := "Standard"; name := "Broken" |}.
Definition standardTable : LibraryName :=
  {| namespace := "Standard"; name := "Table" |}.

Definition baseConfig : Config :=
  {| configNamespace := "Standard"; moduleName := "Base";
     configLicense := "APLv2"; configComponentGroups := None |}.
Definition tableConfig : Config :=
  {| configNamespace := "Standard"; moduleName := "Table";
     configLicense := "MIT"; configComponentGroups := None |}.

Definition environment : Environment :=
  {| localLibraryManager := Actor 0;
     SemVer_parse := λ version,
       if decide (version = "1.2.0") then Success version
       else Failure ("not a semantic version: " +:+ version);
     findCachedLibrary := λ libraryName version,
       if decide (libraryName = standardBase) then Some "cache/Base"
       else if decide (libraryName = standardBroken)
            then Some "cache/Broken"
            else None;
     readPackage := λ libraryPath,
       if decide (libraryPath = "cache/Base") then Success baseConfig
       else Failure "package.yaml: cannot parse";
     fetchPackageConfig := λ repositoryUrl libraryName version,
       if decide (libraryName = standardTable) then Success tableConfig
       else Failure "library not found in the repository";
     fromComponentGroups := λ libraryName groups,
       length (newGroups groups) + length (extendedGroups groups);
     mapFailure := λ failure,
       match failure with
       | InvalidSemverVersionError version => version
       end;
     mapException := λ exception, exception;
     Errors_RequestTimeout := "Request timeout" |}.

Definition client : ActorRef := Actor 7.

Definition repository : string := "https://libraries.example.org".

Definition getPackage (libraryName : LibraryName) (version : LibraryVersion)
  : Params :=
  {| paramsNamespace := namespace libraryName;
     paramsName := name libraryName;
     paramsVersion := version |}.
End Server.

(** A distribution with two edition directories and a cache directory, and
    a language home. *)
Module Installation.
Import EditionManager.

Definition distribution : DistributionManager :=
  {| paths :=
       {| editionSearchPaths :=
            ["/opt/enso/editions"; "/home/user/.enso/editions"];
          cachedEditions := "/home/user/.cache/enso/editions" |};
     getConfig :=
       {| editionProviders := ["https://editions.example.org"] |} |}.

Definition engineHome : LanguageHome :=
  {| editions := "/opt/enso/engine/editions" |}.

(** A distribution that lists the engine's editions directory and one of
    its own directories twice, and keeps its cache in a listed directory. *)
Definition overlapping : DistributionManager :=
  {| paths :=
       {| editionSearchPaths :=
            ["/opt/enso/editions"; "/opt/enso/engine/editions";
             "/home/user/.enso/editions"; "/opt/enso/editions"];
          cachedEditions := "/home/user/.enso/editions" |};
     getConfig := {| editionProviders := [] |} |}.
End Installation.
End Scenarios.

(** * Properties *)

(** ** [distinct] *)

Section DistinctFacts.
Context {A : Type} `{EqDecision A}.
Implicit Types (l seen : list A) (x : A).

Lemma elem_of_distinctFrom seen l x :
  x ∈ distinctFrom seen l ↔ x ∈ l ∧ x ∉ seen.
Proof.
  revert seen. induction l as [|y l IH]; intros seen; simpl.
  - set_solver.
  - destruct (decide (y ∈ seen)) as [Hy|Hy].
    + rewrite IH. set_solver.
    + rewrite elem_of_cons, IH.
      destruct (decide (x = y)) as [->|Hne]; set_solver.
Qed.

Lemma NoDup_distinctFrom seen l : NoDup (distinctFrom seen l).
Proof.
  revert seen. induction l as [|y l IH]; intros seen; simpl.
  - constructor.
  - destruct (decide (y ∈ seen)); [apply IH|].
    constructor; [|apply IH].
    rewrite elem_of_distinctFrom. set_solver.
Qed.

(** Only the elements of [seen] matter, not their order or number. *)
Lemma distinctFrom_ext seen seen' l :
  (∀ x, x ∈ seen ↔ x ∈ seen') →
  distinctFrom seen l = distinctFrom seen' l.
Proof.
  revert seen seen'. induction l as [|y l IH]; intros seen seen' Hs; simpl.
  - reflexivity.
  - destruct (decide (y ∈ seen)) as [Hy|Hy];
      destruct (decide (y ∈ seen')) as [Hy'|Hy'];
      try (exfalso; apply Hs in Hy || apply Hs in Hy'; contradiction).
    + by apply IH.
    + f_equal. apply IH. set_solver.
Qed.

Lemma distinctFrom_app seen l1 l2 :
  distinctFrom seen (l1 ++ l2)
  = distinctFrom seen l1 ++ distinctFrom (l1 ++ seen) l2.
Proof.
  revert seen. induction l1 as [|y l1 IH]; intros seen; simpl.
  - reflexivity.
  - destruct (decide (y ∈ seen)) as [Hy|Hy].
    + rewrite IH. f_equal. apply distinctFrom_ext. set_solver.
    + rewrite IH. simpl. do 2 f_equal. apply distinctFrom_ext. set_solver.
Qed.

(** Starting from a larger [seen] set filters the result. *)
Lemma distinctFrom_filter extra seen l :
  distinctFrom (extra ++ seen) l
  = filter (λ x, x ∉ extra) (distinctFrom seen l).
Proof.
  revert extra seen. induction l as [|y l IH]; intros extra seen; simpl.
  - reflexivity.
  - destruct (decide (y ∈ seen)) as [Hy|Hy].
    + rewrite decide_True by set_solver. apply IH.
    + destruct (decide (y ∈ extra)) as [He|He].
      * rewrite decide_True by set_solver.
        rewrite filter_cons_False by tauto.
        rewrite <- IH. apply distinctFrom_ext. set_solver.
      * rewrite decide_False by set_solver.
        rewrite filter_cons_True by done.
        f_equal. rewrite <- IH. apply distinctFrom_ext. set_solver.
Qed.

Lemma distinctFrom_NoDup seen l :
  NoDup l → (∀ x, x ∈ l → x ∉ seen) → distinctFrom seen l = l.
Proof.
  intros Hnd. revert seen.
  induction Hnd as [|y l Hy Hnd IH]; intros seen Hs; simpl.
  - reflexivity.
  - rewrite decide_False by set_solver.
    f_equal. apply IH. intros x Hx. set_solver.
Qed.

Lemma NoDup_distinct l : NoDup (distinct l).
Proof. apply NoDup_distinctFrom. Qed.

Lemma elem_of_distinct l x : x ∈ distinct l ↔ x ∈ l.
Proof. unfold distinct. rewrite elem_of_distinctFrom. set_solver. Qed.

Lemma distinct_NoDup l : NoDup l → distinct l = l.
Proof. intros Hnd. apply distinctFrom_NoDup; set_solver. Qed.

(** The elements of the first list keep their place; the second list
    contributes only what the first one lacks. *)
Lemma distinct_app l1 l2 :
  distinct (l1 ++ l2)
  = distinct l1 ++ filter (λ x, x ∉ l1) (distinct l2).
Proof.
  unfold distinct. rewrite distinctFrom_app.
  f_equal. apply distinctFrom_filter.
Qed.

Lemma distinct_snoc l x :
  NoDup l →
  distinct (l ++ [x]) = if decide (x ∈ l) then l else l ++ [x].
Proof.
  intros Hnd. rewrite distinct_app, (distinct_NoDup l Hnd).
  unfold distinct. simpl.
  destruct (decide (x ∈ l)) as [Hx|Hx].
  - rewrite filter_cons_False by tauto. simpl. apply app_nil_r.
  - rewrite filter_cons_True by done. reflexivity.
Qed.
End DistinctFacts.

(** ** The edition search path *)

Section SearchPaths.
Import EditionManager.
Implicit Types (distributionManager : DistributionManager)
  (languageHome : option LanguageHome).

Lemma NoDup_languageHomeEditions languageHome :
  NoDup (languageHomeEditions languageHome).
Proof.
  destruct languageHome as [home|]; simpl.
  - apply NoDup_singleton.
  - constructor.
Qed.

(** Every element of the result sits where it first occurs in the input:
    what precedes it in the result is what precedes its first occurrence. *)
Lemma distinct_first_occurrence {A : Type} `{EqDecision A}
    (before after : list A) (x : A) :
  x ∉ before →
  ∃ kept rest,
    distinct (before ++ x :: after) = kept ++ x :: rest
    ∧ ∀ y, y ∈ kept ↔ y ∈ before.
Proof.
  intros Hx. exists (distinct before).
  rewrite distinct_app. unfold distinct at 2. simpl.
  rewrite filter_cons_True by done.
  eexists. split; [reflexivity|]. apply elem_of_distinct.
Qed.

(** C8. The search path is the language home's editions directory (when
    there is a language home) followed by the distribution's edition search
    paths, each directory kept where it first occurs. It has no duplicate and
    holds exactly the directories of the two sources. With a language home
    its first entry is the language home's editions directory, followed by
    the distribution's directories other than that one; without, it is the
    distribution's directories. In both cases a directory is preceded by
    exactly the directories that precede its first occurrence in the sources.
    Without updating, the provider searches that path with the cache
    directory appended and the whole de-duplicated again, which adds the
    cache directory at the end unless the path already had it. So, for the
    engine home [/opt/enso/engine/editions] and a distribution that lists
    [/opt/enso/editions], the engine's directory, [/home/user/.enso/editions]
    and [/opt/enso/editions] again, with the cache in
    [/home/user/.enso/editions], the provider searches the engine's
    directory, [/opt/enso/editions] and [/home/user/.enso/editions], in that
    order. *)
Theorem getSearchPaths_ordered_distinct distributionManager languageHome :
  let home :=
    match languageHome with
    | Some lh => [editions lh]
    | None => []
    end in
  let distribution := editionSearchPaths (paths distributionManager) in
  let cachePath := cachedEditions (paths distributionManager) in
  let searchPaths := getSearchPaths distributionManager languageHome in
  NoDup searchPaths
  ∧ (∀ p, p ∈ searchPaths ↔ p ∈ home ∨ p ∈ distribution)
  ∧ searchPaths = home ++ filter (λ p, p ∉ home) (distinct distribution)
  ∧ match languageHome with
    | Some lh =>
        ∃ others,
          searchPaths = editions lh :: others
          ∧ (editions lh ∉ others)
          ∧ (∀ p, p ∈ others ↔ p ∈ distribution ∧ p ≠ editions lh)
    | None => (∀ p, p ∈ searchPaths ↔ p ∈ distribution)
    end
  ∧ (∀ before p after,
       home ++ distribution = before ++ p :: after →
       p ∉ before →
       ∃ kept rest,
         searchPaths = kept ++ p :: rest ∧ ∀ q, q ∈ kept ↔ q ∈ before)
  ∧ makeEditionProvider distributionManager languageHome false
    = FileSystemEditionProvider (distinct (searchPaths ++ [cachePath]))
  ∧ NoDup (distinct (searchPaths ++ [cachePath]))
  ∧ distinct (searchPaths ++ [cachePath])
    = (if decide (cachePath ∈ searchPaths) then searchPaths
       else searchPaths ++ [cachePath])
  ∧ getSearchPaths Scenarios.Installation.overlapping
      (Some Scenarios.Installation.engineHome)
    = ["/opt/enso/engine/editions"; "/opt/enso/editions";
       "/home/user/.enso/editions"]
  ∧ makeEditionProvider Scenarios.Installation.overlapping
      (Some Scenarios.Installation.engineHome) false
    = FileSystemEditionProvider
        ["/opt/enso/engine/editions"; "/opt/enso/editions";
         "/home/user/.enso/editions"].
Proof.
  intros home distribution cachePath searchPaths.
  assert (Hhome : languageHomeEditions languageHome = home)
    by (by destruct languageHome).
  assert (Hnd : NoDup searchPaths) by apply NoDup_distinct.
  assert (Hsources : searchPaths = distinct (home ++ distribution)).
  { unfold searchPaths, getSearchPaths. by rewrite Hhome. }
  assert (Hshape :
    searchPaths = home ++ filter (λ p, p ∉ home) (distinct distribution)).
  { rewrite Hsources, distinct_app.
    rewrite (distinct_NoDup home); [done|].
    rewrite <- Hhome. apply NoDup_languageHomeEditions. }
  split; [done|].
  split. { intros p. rewrite Hsources, elem_of_distinct. apply elem_of_app. }
  split; [done|].
  split.
  { destruct languageHome as [lh|]; simpl in *.
    - eexists. split; [exact Hshape|]. split.
      + rewrite list_elem_of_filter. set_solver.
      + intros p. rewrite list_elem_of_filter, elem_of_distinct. set_solver.
    - intros p. rewrite Hsources. simpl. apply elem_of_distinct. }
  split.
  { intros before p after Hsplit Hp. rewrite Hsources, Hsplit.
    by apply distinct_first_occurrence. }
  split; [done|].
  split; [apply NoDup_distinct|].
  split; [by apply distinct_snoc|].
  split; vm_compute; reflexivity.
Qed.
End SearchPaths.

(** ** Edition resolution *)

Section Resolution.
Import Editions.
Context {SemVer : Type} `{EqDecision SemVer}.
Implicit Types (provider : gmap string (Located SemVer))
  (raw : RawEdition SemVer) (visited : gset string).

(** One step of the resolver, as the specification words it. *)
Lemma resolveFrom_body provider visited raw :
  resolveFrom provider visited raw
  = match parent raw with
    | None => inr (resolveRoot raw)
    | Some p =>
        if decide (p ∈ visited) then inl (EditionCycleDetected p)
        else
          match provider !! p with
          | None => inl (EditionNotFound p)
          | Some Unparseable => inl (EditionParseError p)
          | Some (Parsed parentRaw) =>
              match resolveFrom provider ({[p]} ∪ visited) parentRaw with
              | inl e => inl e
              | inr parentResolved => inr (merge raw parentResolved)
              end
          end
    end.
Proof.
  rewrite resolveFrom_equation_1.
  destruct (parent raw) as [p|]; simpl; [|reflexivity].
  destruct (decide (p ∈ visited)) as [Hv|Hv]; simpl; [reflexivity|].
  unfold lookupEdition.
  enough (Hgen : ∀ found (Hfound : provider !! p = found),
    resolveFrom_unfold_clause_1_clause_2_clause_2 provider visited raw p
      (exist _ found Hfound) Hv
    = match found with
      | None => inl (EditionNotFound p)
      | Some Unparseable => inl (EditionParseError p)
      | Some (Parsed parentRaw) =>
          match resolveFrom provider ({[p]} ∪ visited) parentRaw with
          | inl e => inl e
          | inr parentResolved => inr (merge raw parentResolved)
          end
      end) by apply Hgen.
  intros [[parentRaw|]|] Hfound; simpl; reflexivity.
Qed.

(** The resolver walks the ancestor path up to the first name that is
    already on the resolution path, and stops there with the cycle error. *)
Lemma resolveFrom_cycle provider raw names :
  AncestorPath provider raw names →
  ∀ visited,
    ¬ NoDup names ∨ (∃ x, x ∈ names ∧ x ∈ visited) →
    ∃ walked n rest,
      names = walked ++ n :: rest
      ∧ NoDup walked
      ∧ (∀ x, x ∈ walked → x ∉ visited)
      ∧ (n ∈ walked ∨ n ∈ visited)
      ∧ resolveFrom provider visited raw = inl (EditionCycleDetected n).
Proof.
  induction 1 as [raw|raw p parentRaw names Hparent Hfound Hpath IH];
    intros visited Hrepeat.
  - destruct Hrepeat as [Hdup|(x & Hx & _)].
    + destruct Hdup. constructor.
    + by apply elem_of_nil in Hx.
  - rewrite resolveFrom_body, Hparent.
    destruct (decide (p ∈ visited)) as [Hp|Hp].
    { exists [], p, names. repeat split; [constructor|set_solver|by right]. }
    rewrite Hfound.
    destruct (IH ({[p]} ∪ visited))
      as (walked & n & rest & Hnames & Hnd & Hfresh & Hn & Hcycle).
    { destruct (decide (p ∈ names)) as [Hin|Hin].
      { right. exists p. set_solver. }
      destruct Hrepeat as [Hdup|(x & Hx & Hv)].
      - left. intros Hnd. apply Hdup. by constructor.
      - right. exists x. set_solver. }
    exists (p :: walked), n, rest. repeat split.
    + by rewrite Hnames.
    + constructor; [|done]. intros Hin. apply (Hfresh p Hin). set_solver.
    + intros x Hx. apply elem_of_cons in Hx as [->|Hx]; [done|].
      specialize (Hfresh x Hx). set_solver.
    + set_solver.
    + by rewrite Hcycle.
Qed.

(** C5. When the ancestor path of an edition repeats a name, resolving the
    edition returns (the resolver is a total function: it recurses on the
    names the provider knows and has not visited yet) and what it returns is
    the cycle error, raised at the first name of the path that was met
    before, whatever the length of the path. *)
Theorem resolveEdition_cycle provider raw names :
  AncestorPath provider raw names →
  ¬ NoDup names →
  ∃ walked n rest,
    names = walked ++ n :: rest
    ∧ NoDup walked
    ∧ n ∈ walked
    ∧ EditionManager.resolveEdition provider raw
      = Failure (EditionCycleDetected n).
Proof.
  intros Hpath Hdup.
  destruct (resolveFrom_cycle provider raw names Hpath ∅)
    as (walked & n & rest & Hnames & Hnd & _ & Hn & Hc); [by left|].
  exists walked, n, rest. repeat split; [done|done|set_solver|].
  unfold EditionManager.resolveEdition, resolve. by rewrite Hc.
Qed.
End Resolution.

Section Merge.
Import Editions.
Context {SemVer : Type} `{EqDecision SemVer}.
Implicit Types (provider : gmap string (Located SemVer))
  (raw child parentRaw : RawEdition SemVer).

(** Resolving a child whose parent is found and resolves. *)
Lemma resolve_child provider child p parentRaw parentResolved :
  parent child = Some p →
  provider !! p = Some (Parsed parentRaw) →
  resolveFrom provider {[p]} parentRaw = inr parentResolved →
  resolve provider child = inr (merge child parentResolved).
Proof.
  intros Hparent Hfound Hresolved.
  unfold resolve. rewrite resolveFrom_body, Hparent.
  rewrite decide_False by set_solver.
  rewrite Hfound, (right_id_L ∅ (∪)), Hresolved. reflexivity.
Qed.
End Merge.

(** C4. For a child edition whose parent is found and resolves on the
    resolution path, the resolved child has the child's engine version when
    the child gives one and the resolved parent's otherwise, and each of its
    lists is the child's list followed by the resolved parent's,
    de-duplicated keeping first occurrences. In particular the child
    [C{parent=P, repos=[B,C]}] under the parent [P{engine=1.0, repos=[A,B]}]
    resolves to engine [1.0] and repositories [[B,C,A]]. *)
Theorem resolveEdition_merges_child_over_parent :
  (∀ (SemVer : Type) (SemVer_eq_dec : EqDecision SemVer)
     (provider : gmap string (Editions.Located SemVer))
     (child parentRaw : Editions.RawEdition SemVer) (p : string)
     (parentResolved : Editions.ResolvedEdition SemVer),
      Editions.parent child = Some p →
      provider !! p = Some (Editions.Parsed parentRaw) →
      Editions.resolveFrom provider {[p]} parentRaw = inr parentResolved →
      EditionManager.resolveEdition provider child
      = Success
          {| Editions.resolvedEngineVersion :=
               match Editions.engineVersion child with
               | Some v => Some v
               | None => Editions.resolvedEngineVersion parentResolved
               end;
             Editions.resolvedRepositories :=
               distinct (default [] (Editions.repositories child)
                           ++ Editions.resolvedRepositories parentResolved);
             Editions.resolvedLibraries :=
               distinct (default [] (Editions.libraries child)
                           ++ Editions.resolvedLibraries parentResolved) |})
  ∧ EditionManager.resolveEdition Scenarios.providerOfP Scenarios.editionC
    = Success
        {| Editions.resolvedEngineVersion := Some "1.0";
           Editions.resolvedRepositories :=
             [Scenarios.repositoryB; Scenarios.repositoryC;
              Scenarios.repositoryA];
           Editions.resolvedLibraries := [] |}.
Proof.
  split.
  - intros SemVer ? provider child parentRaw p parentResolved Hp Hfound Hres.
    unfold EditionManager.resolveEdition.
    by rewrite (resolve_child provider child p parentRaw parentResolved).
  - vm_compute. reflexivity.
Qed.

(** The general half of C4 at the editions [P] and [C]. *)
Lemma resolveEdition_merges_child_over_parent_witness :
  EditionManager.resolveEdition Scenarios.providerOfP Scenarios.editionC
  = Success
      {| Editions.resolvedEngineVersion := Some "1.0";
         Editions.resolvedRepositories :=
           distinct ([Scenarios.repositoryB; Scenarios.repositoryC]
                       ++ [Scenarios.repositoryA; Scenarios.repositoryB]);
         Editions.resolvedLibraries := distinct ([] ++ []) |}.
Proof.
  apply (proj1 resolveEdition_merges_child_over_parent string _
           Scenarios.providerOfP Scenarios.editionC Scenarios.editionP "P"
           {| Editions.resolvedEngineVersion := Some "1.0";
              Editions.resolvedRepositories :=
                [Scenarios.repositoryA; Scenarios.repositoryB];
              Editions.resolvedLibraries := [] |}).
  - reflexivity.
  - vm_compute. reflexivity.
  - vm_compute. reflexivity.
Defined.

(** C5 at an edition whose ancestors [left] and [right] name each other. *)
Lemma resolveEdition_cycle_witness :
  ∃ walked n rest,
    ["left"; "right"; "left"] = walked ++ n :: rest
    ∧ NoDup walked
    ∧ n ∈ walked
    ∧ EditionManager.resolveEdition
        Scenarios.cyclicProvider Scenarios.editionProject
      = Failure (Editions.EditionCycleDetected n).
Proof.
  apply (resolveEdition_cycle Scenarios.cyclicProvider
           Scenarios.editionProject ["left"; "right"; "left"]).
  - eapply Editions.AncestorPath_cons; [reflexivity|vm_compute; reflexivity|].
    eapply Editions.AncestorPath_cons; [reflexivity|vm_compute; reflexivity|].
    eapply Editions.AncestorPath_cons; [reflexivity|vm_compute; reflexivity|].
    apply Editions.AncestorPath_nil.
  - intros Hnd. apply NoDup_cons in Hnd as [Hnotin _].
    apply Hnotin. set_solver.
Defined.

(** ** The published-library cache *)

Section Cache.
Import LibraryGetPackageHandler.
Context `{Imports} `{!Environment}.
Implicit Types (libraryName : LibraryName) (version : SemVer)
  (log : list IOEvent).

Lemma networkCalls_app log1 log2 :
  networkCalls (log1 ++ log2) = networkCalls log1 + networkCalls log2.
Proof. unfold networkCalls. by rewrite filter_app, length_app. Qed.

(** On a cache hit the answer is read from the cached package. *)
Lemma getOrFetchPublishedPackage_hit
    libraryName version repositoryUrl libraryPath log :
  findCachedLibrary libraryName version = Some libraryPath →
  getOrFetchPublishedPackage libraryName version repositoryUrl log
  = (Try_map responseOf (readPackage libraryPath),
     log ++ [CacheLookup libraryName version; PackageRead libraryPath]).
Proof.
  intros Hhit.
  unfold getOrFetchPublishedPackage, getCachedPackage, perform, mbind,
    IO_mbind, IO_bind, mret, IO_mret, IO_ret.
  rewrite Hhit. rewrite <- app_assoc. simpl.
  by destruct (readPackage libraryPath).
Qed.

(** On a cache miss the repository is asked. *)
Lemma getOrFetchPublishedPackage_miss
    libraryName version repositoryUrl log :
  findCachedLibrary libraryName version = None →
  getOrFetchPublishedPackage libraryName version repositoryUrl log
  = (Try_map responseOf
       (fetchPackageConfig repositoryUrl libraryName version),
     log ++ [CacheLookup libraryName version;
             RepositoryFetch repositoryUrl libraryName version]).
Proof.
  intros Hmiss.
  unfold getOrFetchPublishedPackage, getCachedPackage,
    fetchPublishedPackage, perform, mbind, IO_mbind, IO_bind, mret,
    IO_mret, IO_ret.
  rewrite Hmiss. by rewrite <- app_assoc.
Qed.

(** C2. When the cache holds the library at the version, the package is
    answered from the cached descriptor: the cache is looked up, the
    cached package is read, and the count of repository calls stays what it
    was. *)
Theorem getOrFetchPublishedPackage_cached_no_network
    libraryName version repositoryUrl libraryPath log :
  findCachedLibrary libraryName version = Some libraryPath →
  let answer :=
    getOrFetchPublishedPackage libraryName version repositoryUrl log in
  answer.1 = Try_map responseOf (readPackage libraryPath)
  ∧ answer.2
    = log ++ [CacheLookup libraryName version; PackageRead libraryPath]
  ∧ networkCalls answer.2 = networkCalls log.
Proof.
  intros Hhit answer. unfold answer.
  rewrite (getOrFetchPublishedPackage_hit _ _ _ _ _ Hhit). simpl.
  repeat split. rewrite networkCalls_app. unfold networkCalls. simpl. lia.
Qed.

(** C3. When the cache holds the library at the version and the cached
    package descriptor does not parse, the future fails with the parse
    error, and the repository is not asked. *)
Theorem getOrFetchPublishedPackage_corrupt_cache_fails
    libraryName version repositoryUrl libraryPath exception log :
  findCachedLibrary libraryName version = Some libraryPath →
  readPackage libraryPath = Failure exception →
  let answer :=
    getOrFetchPublishedPackage libraryName version repositoryUrl log in
  answer.1 = Failure exception
  ∧ networkCalls answer.2 = networkCalls log
  ∧ Forall (λ e, isCacheAccess e = true) (drop (length log) answer.2).
Proof.
  intros Hhit Hcorrupt answer. unfold answer.
  rewrite (getOrFetchPublishedPackage_hit _ _ _ _ _ Hhit), Hcorrupt. simpl.
  repeat split.
  - rewrite networkCalls_app. unfold networkCalls. simpl. lia.
  - rewrite drop_app_length. by repeat constructor.
Qed.
End Cache.

(** ** The handler as a one-shot state machine *)

Section Orchestration.
Import LibraryGetPackageHandler.
Context `{Imports} `{!Environment}.
Implicit Types (h : Handler) (e : Event) (schedule : list Event)
  (id : Id) (replyTo sender : ActorRef) (message : Message).

Lemma run_app h schedule1 schedule2 :
  run h (schedule1 ++ schedule2) = run (run h schedule1) schedule2.
Proof. apply foldl_app. Qed.

(** The request is the first thing the handler receives. *)
Lemma serve_request sender id params schedule :
  serve sender id params schedule
  = run (requestStage_receive sender (Request id params) initial) schedule.
Proof. reflexivity. Qed.

(** *** After [context.stop(self)] *)

Lemma step_stopped h e :
  behavior h = stopped →
  behavior (step h e) = stopped
  ∧ sent (step h e) = sent h
  ∧ io (step h e) = io h.
Proof.
  intros Hb. destruct e as [sender message| | |]; simpl.
  - unfold enqueue. by rewrite Hb.
  - destruct (piped h); [done|]. unfold enqueue. simpl. by rewrite Hb.
  - destruct (timer h); try done. unfold enqueue. simpl. by rewrite Hb.
  - destruct (mailbox h) as [|[sender message] rest]; [done|].
    unfold receive. simpl. by rewrite Hb.
Qed.

Lemma run_stopped schedule h :
  behavior h = stopped →
  behavior (run h schedule) = stopped
  ∧ sent (run h schedule) = sent h
  ∧ io (run h schedule) = io h.
Proof.
  revert h. induction schedule as [|e schedule IH]; intros h Hb; [done|].
  destruct (step_stopped h e Hb) as (Hb' & Hsent & Hio).
  destruct (IH (step h e) Hb') as (? & ? & ?).
  simpl. repeat split; congruence.
Qed.

(** *** While the response is awaited *)

(** Whatever arrives is queued behind what the mailbox holds. *)
Lemma step_queues h e id replyTo :
  behavior h = responseStage id replyTo →
  isReceive e = false →
  behavior (step h e) = responseStage id replyTo
  ∧ sent (step h e) = sent h
  ∧ ∃ more, mailbox (step h e) = mailbox h ++ more.
Proof.
  intros Hb He. destruct e as [sender message| | |]; simpl; try done.
  - unfold enqueue. rewrite Hb. simpl. eauto.
  - destruct (piped h).
    + repeat split; try done. exists []. by rewrite app_nil_r.
    + unfold enqueue. simpl. rewrite Hb. simpl. eauto.
  - destruct (timer h);
      try (repeat split; try done; exists []; by rewrite app_nil_r).
    unfold enqueue. simpl. rewrite Hb. simpl. eauto.
Qed.

(** The message at the head of the mailbox is the one that is answered,
    once the actor runs; nothing is sent before, nothing after. *)
Lemma first_message_decides id replyTo message reply schedule :
  (∀ h0, behavior (responseStage_receive id replyTo message h0) = stopped
         ∧ sent (responseStage_receive id replyTo message h0)
           = sent h0 ++ [reply]) →
  ∀ h sender rest,
    behavior h = responseStage id replyTo →
    mailbox h = (sender, message) :: rest →
    sent (run h schedule)
    = if existsb isReceive schedule then sent h ++ [reply] else sent h.
Proof.
  intros Hreply.
  induction schedule as [|e schedule IH]; intros h sender rest Hb Hm; [done|].
  destruct (isReceive e) eqn:He.
  - destruct e; try done. simpl. rewrite Hm. unfold receive. simpl.
    rewrite Hb.
    match goal with |- context [responseStage_receive _ _ _ ?h0] =>
      destruct (Hreply h0) as [Hs Hsent];
      destruct (run_stopped schedule _ Hs) as (_ & -> & _)
    end.
    by rewrite Hsent.
  - destruct (step_queues h e id replyTo Hb He) as (Hb' & Hsent & more & Hm').
    change (run h (e :: schedule)) with (run (step h e) schedule).
    rewrite Hm in Hm'. simpl in Hm'.
    rewrite (IH (step h e) sender (rest ++ more) Hb' Hm'), Hsent.
    simpl. by rewrite He.
Qed.

(** With an empty mailbox the actor has nothing to receive. *)
Lemma run_idle n h :
  mailbox h = [] → run h (replicate n Receive) = h.
Proof.
  intros Hm. induction n as [|n IH]; [done|].
  simpl. by rewrite Hm.
Qed.

(** The log of reads and fetches is written in the request stage only. *)
Lemma step_io h e :
  behavior h ≠ requestStage →
  behavior (step h e) ≠ requestStage ∧ io (step h e) = io h.
Proof.
  intros Hb. destruct e as [sender message| | |]; simpl.
  - unfold enqueue. revert Hb.
    destruct (behavior h) eqn:Hbh; simpl; rewrite ?Hbh; done.
  - destruct (piped h); [done|]. unfold enqueue. simpl. revert Hb.
    destruct (behavior h) eqn:Hbh; simpl; rewrite ?Hbh; done.
  - destruct (timer h); try done. unfold enqueue. simpl. revert Hb.
    destruct (behavior h) eqn:Hbh; simpl; rewrite ?Hbh; done.
  - destruct (mailbox h) as [|[sender message] rest]; [done|].
    unfold receive. simpl.
    destruct (behavior h) as [|id replyTo|] eqn:Hbh; simpl; [done| |done].
    destruct message as [? ?| |[? ? ?]|?|?|]; simpl; rewrite ?Hbh; done.
Qed.

Lemma run_io schedule h :
  behavior h ≠ requestStage → io (run h schedule) = io h.
Proof.
  revert h. induction schedule as [|e schedule IH]; intros h Hb; [done|].
  destruct (step_io h e Hb) as [Hb' Hio].
  simpl. fold (run (step h e) schedule). by rewrite IH.
Qed.

(** *** What each handled message is answered with *)

Lemma reply_RequestTimeout id replyTo h0 :
  behavior (responseStage_receive id replyTo RequestTimeout h0) = stopped
  ∧ sent (responseStage_receive id replyTo RequestTimeout h0)
    = sent h0
      ++ [{| recipient := replyTo;
             payload := ResponseError (Some id) Errors_RequestTimeout |}].
Proof. done. Qed.

Lemma reply_ManagerFailure id replyTo failure h0 :
  behavior (responseStage_receive id replyTo (ManagerFailure failure) h0)
  = stopped
  ∧ sent (responseStage_receive id replyTo (ManagerFailure failure) h0)
    = sent h0
      ++ [{| recipient := replyTo;
             payload := Mapped (mapFailure failure) |}].
Proof. done. Qed.

(** *** The state the request leaves behind *)

Lemma requestStage_dispatched sender id params :
  lookupDispatched params →
  let h1 := requestStage_receive sender (Request id params) initial in
  behavior h1 = responseStage id sender
  ∧ mailbox h1 = []
  ∧ timer h1 = Scheduled
  ∧ responses h1 = [].
Proof.
  unfold lookupDispatched, requestStage_receive.
  destruct (paramsVersion params) as [|version repositoryUrl]; intros Hd.
  - done.
  - destruct (SemVer_parse version) as [semVerVersion|]; [|done].
    unfold performing.
    by destruct (getOrFetchPublishedPackage _ _ _ (io initial)).
Qed.

Lemma responses_snoc (l : list Sent) m :
  isResponse (payload m) = true →
  filter (λ m, isResponse (payload m) = true) (l ++ [m])
  = filter (λ m, isResponse (payload m) = true) l ++ [m].
Proof. intros Hm. rewrite filter_app. f_equal. by rewrite filter_cons_True. Qed.

(** The responses after the head of the mailbox has been answered, for a
    handler that has not responded yet. *)
Lemma first_message_responses id replyTo message reply schedule h sender rest :
  (∀ h0, behavior (responseStage_receive id replyTo message h0) = stopped
         ∧ sent (responseStage_receive id replyTo message h0)
           = sent h0 ++ [reply]) →
  isResponse (payload reply) = true →
  behavior h = responseStage id replyTo →
  mailbox h = (sender, message) :: rest →
  responses h = [] →
  responses (run h schedule)
  = if existsb isReceive schedule then [reply] else [].
Proof.
  intros Hreply Hresp Hb Hm Hnone. unfold responses.
  rewrite (first_message_decides id replyTo message reply schedule
             Hreply h sender rest Hb Hm).
  destruct (existsb isReceive schedule); [|exact Hnone].
  rewrite responses_snoc by done. fold (responses h). by rewrite Hnone.
Qed.

(** C1. Take a request that starts a lookup, and a schedule in which
    nothing reaches the handler before the timer goes off. Whatever happens
    afterwards (the lookup completing late, more messages, more turns of the
    actor), the handler sends one response in all, the timeout error for the
    request's id to the requester, as soon as the actor has run once after
    the timer; a lookup result that arrives later is answered by
    nothing. *)
Theorem timeout_first_single_TimeoutError sender id params n late :
  lookupDispatched params →
  responses
    (serve sender id params (replicate n Receive ++ TimerFires :: late))
  = if existsb isReceive late
    then [{| recipient := sender;
             payload := ResponseError (Some id) Errors_RequestTimeout |}]
    else [].
Proof.
  intros Hd.
  destruct (requestStage_dispatched sender id params Hd)
    as (Hb & Hm & Ht & Hnone).
  rewrite serve_request, run_app, (run_idle n _ Hm).
  change (run ?h (TimerFires :: late)) with (run (step h TimerFires) late).
  set (h1 := requestStage_receive sender (Request id params) initial) in *.
  clearbody h1.
  apply (first_message_responses id sender RequestTimeout _ late
           (step h1 TimerFires) Self []).
  - apply reply_RequestTimeout.
  - reflexivity.
  - simpl. rewrite Ht. unfold enqueue. simpl. by rewrite Hb.
  - simpl. rewrite Ht. unfold enqueue. simpl. by rewrite Hb, Hm.
  - unfold responses. simpl. rewrite Ht. unfold enqueue. simpl.
    by rewrite Hb.
Qed.

(** C6. A published version that parses, is not in the cache, and for which
    the repository returns a descriptor with the licence [MIT] and no
    component groups: when the fetch completes before the timer, the one
    response is the result with [license = Some "MIT"] and
    [componentGroups = None]. *)
Theorem fetched_package_license_MIT
    sender id namespace name version repositoryUrl semVerVersion config
    n late :
  SemVer_parse version = Success semVerVersion →
  findCachedLibrary {| namespace := namespace; name := name |} semVerVersion
  = None →
  fetchPackageConfig repositoryUrl
    {| namespace := namespace; name := name |} semVerVersion
  = Success config →
  configLicense config = "MIT" →
  configComponentGroups config = None →
  responses
    (serve sender id
       {| paramsNamespace := namespace; paramsName := name;
          paramsVersion := PublishedLibraryVersion version repositoryUrl |}
       (replicate n Receive ++ FutureCompletes :: late))
  = if existsb isReceive late
    then [{| recipient := sender;
             payload :=
               ResponseResult id
                 {| resultLicense := Some "MIT";
                    resultComponentGroups := None |} |}]
    else [].
Proof.
  intros Hparse Hmiss Hfetch Hlicense Hgroups.
  rewrite serve_request. unfold requestStage_receive. simpl.
  rewrite Hparse. unfold performing.
  rewrite (getOrFetchPublishedPackage_miss _ _ _ _ Hmiss), Hfetch. simpl.
  rewrite run_app, run_idle by done.
  apply (first_message_responses id sender
           (PackageResponse (responseOf config)) _ late _ Self []);
    try done.
  intros h0. unfold responseOf. simpl.
  by rewrite Hlicense, Hgroups.
Qed.

(** C7. A published version whose version string does not parse: once the
    actor has run, the one response is the mapped
    [InvalidSemverVersionError] failure, which carries the version string
    as it was given; and on every schedule the log of cache lookups,
    package reads and repository fetches stays empty. *)
Theorem invalid_version_rejected_without_lookup
    sender id namespace name version repositoryUrl exception schedule :
  SemVer_parse version = Failure exception →
  let h :=
    serve sender id
      {| paramsNamespace := namespace; paramsName := name;
         paramsVersion := PublishedLibraryVersion version repositoryUrl |}
      schedule in
  responses h
  = (if existsb isReceive schedule
     then [{| recipient := sender;
              payload :=
                Mapped (mapFailure (InvalidSemverVersionError version)) |}]
     else [])
  ∧ io h = [].
Proof.
  intros Hparse h. unfold h.
  rewrite serve_request. unfold requestStage_receive. simpl.
  rewrite Hparse. split.
  - apply (first_message_responses id sender
             (ManagerFailure (InvalidSemverVersionError version)) _
             schedule _ Self []); try done.
  - by rewrite run_io.
Qed.

(** C9. A [GetPackageResponse] with the empty licence is relayed with the
    licence [None], whatever its component groups; one whose component
    groups are present with no new group and no extended group is relayed
    with the component groups [None], whatever its licence. *)
Theorem empty_license_and_empty_groups_relayed_as_None
    id replyTo libraryName h :
  (∀ componentGroups, ∃ relayedGroups,
      sent (responseStage_receive id replyTo
              (PackageResponse
                 {| libraryName := libraryName; license := "";
                    componentGroups := componentGroups |}) h)
      = sent h
        ++ [{| recipient := replyTo;
               payload :=
                 ResponseResult id
                   {| resultLicense := None;
                      resultComponentGroups := relayedGroups |} |}])
  ∧ (∀ license, ∃ relayedLicense,
      sent (responseStage_receive id replyTo
              (PackageResponse
                 {| libraryName := libraryName; license := license;
                    componentGroups :=
                      Some {| newGroups := [];
                              extendedGroups := [] |} |}) h)
      = sent h
        ++ [{| recipient := replyTo;
               payload :=
                 ResponseResult id
                   {| resultLicense := relayedLicense;
                      resultComponentGroups := None |} |}]).
Proof.
  split.
  - intros componentGroups. eexists. simpl. reflexivity.
  - intros license. eexists. simpl. reflexivity.
Qed.

(** C10. For a published version that parses and is held by the cache, two
    requests that differ in the repository URL only leave the handler in
    the same state on every schedule; so the responses are the same. *)
Theorem cached_reply_independent_of_repositoryUrl
    sender id namespace name version semVerVersion libraryPath
    repositoryUrl1 repositoryUrl2 schedule :
  SemVer_parse version = Success semVerVersion →
  findCachedLibrary {| namespace := namespace; name := name |} semVerVersion
  = Some libraryPath →
  let request repositoryUrl :=
    {| paramsNamespace := namespace; paramsName := name;
       paramsVersion := PublishedLibraryVersion version repositoryUrl |} in
  serve sender id (request repositoryUrl1) schedule
  = serve sender id (request repositoryUrl2) schedule
  ∧ responses (serve sender id (request repositoryUrl1) schedule)
    = responses (serve sender id (request repositoryUrl2) schedule).
Proof.
  intros Hparse Hhit request.
  assert (Hsame : serve sender id (request repositoryUrl1) schedule
                  = serve sender id (request repositoryUrl2) schedule).
  { rewrite !serve_request. unfold requestStage_receive. simpl.
    rewrite Hparse. unfold performing.
    by rewrite !(getOrFetchPublishedPackage_hit _ _ _ _ _ Hhit). }
  split; [exact Hsame|by rewrite Hsame].
Qed.
End Orchestration.

(** ** The theorems at the scenario server *)

Section AtTheServer.
Import LibraryGetPackageHandler Scenarios.Server.

#[local] Abbreviation serve := (@serve imports environment).
#[local] Abbreviation responses := (@responses imports).
#[local] Abbreviation getOrFetchPublishedPackage :=
  (@getOrFetchPublishedPackage imports environment).
#[local] Abbreviation networkCalls := (@networkCalls imports).
#[local] Abbreviation CacheLookup := (@CacheLookup imports).
#[local] Abbreviation PackageRead := (@PackageRead imports).
#[local] Abbreviation Mapped := (@Mapped imports).
#[local] Abbreviation ResponseError := (@ResponseError imports).
#[local] Abbreviation ResponseResult := (@ResponseResult imports).
#[local] Abbreviation Receive := (@Receive imports).
#[local] Abbreviation TimerFires := (@TimerFires imports).
#[local] Abbreviation FutureCompletes := (@FutureCompletes imports).

(** C1 at a request for the published [Standard.Table 1.2.0]: the timer
    goes off first, the fetch completes afterwards. *)
Lemma timeout_first_single_TimeoutError_witness :
  responses
    (serve client 1
       (getPackage standardTable (PublishedLibraryVersion "1.2.0" repository))
       (replicate 2 Receive
          ++ TimerFires :: [FutureCompletes; Receive; Receive]))
  = [{| recipient := client;
        payload := ResponseError (Some 1) "Request timeout" |}].
Proof.
  apply (@timeout_first_single_TimeoutError imports environment client 1
           (getPackage standardTable
              (PublishedLibraryVersion "1.2.0" repository))
           2 [FutureCompletes; Receive; Receive]).
  vm_compute. exact I.
Defined.

(** C2 at the cached [Standard.Base 1.2.0]. *)
Lemma getOrFetchPublishedPackage_cached_no_network_witness :
  let answer :=
    getOrFetchPublishedPackage standardBase "1.2.0" repository [] in
  answer.1 = Success (responseOf baseConfig)
  ∧ answer.2 = [] ++ [CacheLookup standardBase "1.2.0";
                      PackageRead "cache/Base"]
  ∧ networkCalls answer.2 = networkCalls [].
Proof.
  apply (@getOrFetchPublishedPackage_cached_no_network imports environment
           standardBase "1.2.0" repository "cache/Base" []).
  reflexivity.
Defined.

(** C3 at the damaged [Standard.Broken 1.2.0]. *)
Lemma getOrFetchPublishedPackage_corrupt_cache_fails_witness :
  let answer :=
    getOrFetchPublishedPackage standardBroken "1.2.0" repository [] in
  answer.1 = Failure "package.yaml: cannot parse"
  ∧ networkCalls answer.2 = networkCalls []
  ∧ Forall (λ e, @isCacheAccess imports e = true)
      (drop 0 answer.2).
Proof.
  apply (@getOrFetchPublishedPackage_corrupt_cache_fails
           imports environment standardBroken "1.2.0" repository "cache/Broken"
           "package.yaml: cannot parse" []).
  - reflexivity.
  - reflexivity.
Defined.

(** C6 at [Standard.Table 1.2.0], fetched from the repository. *)
Lemma fetched_package_license_MIT_witness :
  responses
    (serve client 1
       {| paramsNamespace := "Standard"; paramsName := "Table";
          paramsVersion := PublishedLibraryVersion "1.2.0" repository |}
       (replicate 1 Receive
          ++ FutureCompletes :: [Receive; TimerFires; Receive]))
  = [{| recipient := client;
        payload :=
          ResponseResult 1
            {| resultLicense := Some "MIT";
               resultComponentGroups := None |} |}].
Proof.
  apply (@fetched_package_license_MIT imports environment client 1 "Standard" "Table" "1.2.0"
           repository "1.2.0" tableConfig 1 [Receive; TimerFires; Receive]).
  - reflexivity.
  - reflexivity.
  - reflexivity.
  - reflexivity.
  - reflexivity.
Defined.

(** C7 at the version string [latest]. *)
Lemma invalid_version_rejected_without_lookup_witness :
  let h :=
    serve client 1
      {| paramsNamespace := "Standard"; paramsName := "Table";
         paramsVersion := PublishedLibraryVersion "latest" repository |}
      [TimerFires; Receive; Receive] in
  responses h
  = [{| recipient := client;
        payload := Mapped "latest" |}]
  ∧ io h = [].
Proof.
  apply (@invalid_version_rejected_without_lookup imports environment
           client 1
           "Standard" "Table" "latest" repository
           "not a semantic version: latest" [TimerFires; Receive; Receive]).
  reflexivity.
Defined.

(** C10 at the cached [Standard.Base 1.2.0] and two repositories. *)
Lemma cached_reply_independent_of_repositoryUrl_witness :
  let request repositoryUrl :=
    {| paramsNamespace := "Standard"; paramsName := "Base";
       paramsVersion := PublishedLibraryVersion "1.2.0" repositoryUrl |} in
  let schedule := [FutureCompletes; Receive; TimerFires; Receive] in
  serve client 1 (request repository) schedule
  = serve client 1 (request "https://mirror.example.org") schedule
  ∧ responses (serve client 1 (request repository) schedule)
    = responses
        (serve client 1 (request "https://mirror.example.org") schedule).
Proof.
  apply (@cached_reply_independent_of_repositoryUrl imports environment
           client 1
           "Standard" "Base" "1.2.0" "1.2.0" "cache/Base"
           repository "https://mirror.example.org"
           [FutureCompletes; Receive; TimerFires; Receive]).
  - reflexivity.
  - reflexivity.
Defined.
End AtTheServer.

(** ** More on the edition search path *)

Section SearchPathOrder.
Context {A : Type} `{EqDecision A}.
Implicit Types (l seen : list A).

(** [distinct] only drops elements: what it keeps stays in the order of the
    input. *)
Lemma distinctFrom_sublist seen l : sublist (distinctFrom seen l) l.
Proof.
  revert seen. induction l as [|x l IH]; intros seen; simpl.
  - constructor.
  - destruct (decide (x ∈ seen)).
    + apply sublist_cons, IH.
    + apply sublist_skip, IH.
Qed.

Lemma distinct_sublist l : sublist (distinct l) l.
Proof. apply distinctFrom_sublist. Qed.
End SearchPathOrder.

Section SearchPathsMore.
Import EditionManager.
Implicit Types (distributionManager : DistributionManager)
  (languageHome : option LanguageHome).

(** X11. The search path is a subsequence of the language home's editions
    directory followed by the distribution's edition search paths: directories
    are dropped, never reordered, and the path is no longer than its
    sources. *)
Theorem getSearchPaths_subsequence distributionManager languageHome :
  let sources :=
    languageHomeEditions languageHome
      ++ editionSearchPaths (paths distributionManager) in
  sublist (getSearchPaths distributionManager languageHome) sources
  ∧ length (getSearchPaths distributionManager languageHome)
    ≤ length sources.
Proof.
  intros sources.
  assert (Hsub : sublist (getSearchPaths distributionManager languageHome)
                   sources) by apply distinct_sublist.
  split; [exact Hsub|by apply sublist_length].
Qed.


(** X13. [EditionManager.apply] never builds the updating provider: its provider
    searches the file system only, along a list without duplicates that
    starts with the whole search path and holds, beyond the search path, the
    cache directory only. *)
Theorem apply_searches_the_file_system distributionManager languageHome :
  ∃ actualSearchPaths,
    editionProvider (apply distributionManager languageHome)
    = FileSystemEditionProvider actualSearchPaths
    ∧ NoDup actualSearchPaths
    ∧ getSearchPaths distributionManager languageHome
        `prefix_of` actualSearchPaths
    ∧ ∀ p, p ∈ actualSearchPaths
           ↔ p ∈ getSearchPaths distributionManager languageHome
             ∨ p = cachedEditions (paths distributionManager).
Proof.
  eexists. split; [reflexivity|].
  assert (Hnd : NoDup (getSearchPaths distributionManager languageHome))
    by apply NoDup_distinct.
  split; [apply NoDup_distinct|].
  rewrite distinct_snoc by done.
  destruct (decide (cachedEditions (paths distributionManager)
                    ∈ getSearchPaths distributionManager languageHome)).
  - split; [done|]. intros p. split; [by left|]. by intros [?| ->].
  - split; [by apply prefix_app_r|].
    intros p. rewrite elem_of_app, list_elem_of_singleton. done.
Qed.
End SearchPathsMore.

(** ** More on the handler *)

Section Stages.
Import LibraryGetPackageHandler.
Context `{Imports} `{!Environment}.
Implicit Types (h : Handler) (e : Event) (schedule : list Event)
  (id : Id) (replyTo sender : ActorRef) (message : Message).

(** Arrivals, completions and the timer touch the mailbox only. *)
Lemma step_arrival h e :
  isReceive e = false →
  behavior (step h e) = behavior h
  ∧ sent (step h e) = sent h
  ∧ io (step h e) = io h.
Proof.
  intros He. destruct e as [sender message| | |]; simpl; try done.
  - unfold enqueue. by destruct (behavior h) eqn:Hb; simpl; rewrite ?Hb.
  - destruct (piped h); [done|]. unfold enqueue. simpl.
    by destruct (behavior h) eqn:Hb; simpl; rewrite ?Hb.
  - destruct (timer h); try done. unfold enqueue. simpl.
    by destruct (behavior h) eqn:Hb; simpl; rewrite ?Hb.
Qed.

(** Receiving the request: the handler awaits the response for the
    requester, and has responded nothing yet. *)
Lemma requestStage_receive_Request sender id params h :
  behavior (requestStage_receive sender (Request id params) h)
  = responseStage id sender
  ∧ responses (requestStage_receive sender (Request id params) h)
    = responses h.
Proof.
  unfold requestStage_receive, responses.
  destruct (paramsVersion params) as [|version repositoryUrl]; simpl.
  - split; [done|]. rewrite filter_app. simpl.
    rewrite filter_cons_False by done. by rewrite filter_nil, app_nil_r.
  - destruct (SemVer_parse version) as [semVerVersion|]; [|done].
    unfold performing.
    by destruct (getOrFetchPublishedPackage _ _ _ (io h)).
Qed.

(** A handled message is answered by one response to the requester, for the
    request's id, and ends the handler. *)
Lemma handled_reply id replyTo message :
  handled message = true →
  ∃ reply,
    answers id replyTo reply
    ∧ isResponse (payload reply) = true
    ∧ ∀ h0,
        behavior (responseStage_receive id replyTo message h0) = stopped
        ∧ sent (responseStage_receive id replyTo message h0)
          = sent h0 ++ [reply]
        ∧ io (responseStage_receive id replyTo message h0) = io h0.
Proof.
  destruct message as [? ?| |[name license groups]|failure|exception|];
    intros Hh; try done; simpl; eexists; (split; [|split; [|done]]);
    try (split; [reflexivity|]); done.
Qed.

(** Any other message is logged as unhandled and changes nothing. *)
Lemma unhandled_ignored id replyTo message h :
  handled message = false →
  responseStage_receive id replyTo message h = h.
Proof. by destruct message as [? ?| |[? ? ?]|?|?|]. Qed.

Lemma questions_snoc (l : list Sent) reply :
  isResponse (payload reply) = true →
  filter (λ m, isResponse (payload m) = false) (l ++ [reply])
  = filter (λ m, isResponse (payload m) = false) l.
Proof.
  intros Hr. rewrite filter_app, filter_cons_False.
  - by rewrite filter_nil, app_nil_r.
  - by rewrite Hr.
Qed.

(** *** One response at most *)

Lemma step_respondedOnce h e : respondedOnce h → respondedOnce (step h e).
Proof.
  intros [Hnone Hone]. destruct (isReceive e) eqn:He.
  - destruct e; try done. simpl.
    destruct (mailbox h) as [|[sender message] rest]; [done|].
    unfold receive. simpl.
    destruct (behavior h) as [|id replyTo|] eqn:Hb.
    + destruct message as [id params| | | | |]; try (by split; rewrite ?Hb).
      match goal with |- respondedOnce (requestStage_receive _ _ ?h0) =>
        destruct (requestStage_receive_Request sender id params h0)
          as [Hb' Hr] end.
      split; rewrite Hr; [|done]. intros _. by apply Hnone.
    + destruct (handled message) eqn:Hh.
      * destruct (handled_reply id replyTo message Hh)
          as (reply & _ & Hresp & Hreply).
        match goal with |- respondedOnce (responseStage_receive _ _ _ ?h0) =>
          destruct (Hreply h0) as (Hs & Hsent & _) end.
        unfold respondedOnce, responses. rewrite Hs, Hsent. simpl.
        rewrite responses_snoc by done. fold (responses h).
        rewrite Hnone by done. split; [done|simpl; lia].
      * rewrite unhandled_ignored by done. by split; simpl; rewrite ?Hb.
    + by split; simpl; rewrite ?Hb.
  - destruct (step_arrival h e He) as (Hb & Hsent & _).
    unfold respondedOnce, responses. by rewrite Hb, Hsent.
Qed.

(** X1. On every schedule, whatever is delivered to it and in whatever
    order, the handler sends one response at most. *)
Theorem at_most_one_response schedule :
  length (responses (run initial schedule)) ≤ 1.
Proof.
  enough (Hinv : ∀ h, respondedOnce h → respondedOnce (run h schedule)).
  { apply Hinv. split; simpl; [done|lia]. }
  induction schedule as [|e schedule IH]; intros h Hh; [done|].
  apply (IH (step h e)), step_respondedOnce, Hh.
Qed.

(** *** The response answers the request *)

Lemma step_answering id sender h e :
  answering id sender h → answering id sender (step h e).
Proof.
  intros Hh. destruct (isReceive e) eqn:He.
  - destruct e; try done. simpl.
    destruct (mailbox h) as [|[from message] rest]; [done|].
    unfold receive. simpl.
    destruct Hh as [[Hb Hnone]|[Hb Hall]]; rewrite Hb.
    + destruct (handled message) eqn:Hm.
      * destruct (handled_reply id sender message Hm)
          as (reply & Hanswers & Hresp & Hreply).
        match goal with |- answering _ _ (responseStage_receive _ _ _ ?h0) =>
          destruct (Hreply h0) as (Hs & Hsent & _) end.
        right. split; [done|]. unfold responses. rewrite Hsent. simpl.
        rewrite responses_snoc by done. fold (responses h).
        rewrite Hnone. by constructor.
      * rewrite unhandled_ignored by done. by left.
    + by right.
  - destruct (step_arrival h e He) as (Hb & Hsent & _).
    unfold answering, responses in *. by rewrite Hb, Hsent.
Qed.

(** X2. Whatever the schedule, and whoever sends the handler further
    messages (a second request among them), every response goes to the sender
    of the request the handler was created for, and a response that carries
    an id carries that request's id. *)
Theorem responses_answer_the_request sender id params schedule :
  Forall (answers id sender) (responses (serve sender id params schedule)).
Proof.
  rewrite serve_request.
  enough (Hinv : ∀ h, answering id sender h →
                      answering id sender (run h schedule)).
  { destruct (requestStage_receive_Request sender id params initial)
      as [Hb Hr].
    destruct (Hinv _ (or_introl (conj Hb Hr))) as [[_ ->]|[_ Hall]];
      [constructor|done]. }
  induction schedule as [|e schedule IH]; intros h Hh; [done|].
  apply (IH (step h e)), step_answering, Hh.
Qed.

(** *** What a request costs *)

Lemma run_questions schedule h :
  behavior h ≠ requestStage → questions (run h schedule) = questions h.
Proof.
  revert h. induction schedule as [|e schedule IH]; intros h Hb; [done|].
  destruct (step_io h e Hb) as [Hb' _].
  change (run h (e :: schedule)) with (run (step h e) schedule).
  rewrite (IH _ Hb'). clear IH Hb'.
  destruct (isReceive e) eqn:He.
  - destruct e; try done. simpl.
    destruct (mailbox h) as [|[from message] rest]; [done|].
    unfold receive. simpl.
    destruct (behavior h) as [|id replyTo|] eqn:Hbh; [done| |done].
    destruct (handled message) eqn:Hm.
    + destruct (handled_reply id replyTo message Hm)
        as (reply & _ & Hresp & Hreply).
      match goal with |- questions (responseStage_receive _ _ _ ?h0) = _ =>
        destruct (Hreply h0) as (_ & Hsent & _) end.
      unfold questions. rewrite Hsent. simpl. by apply questions_snoc.
    + by rewrite unhandled_ignored.
  - destruct (step_arrival h e He) as (_ & Hsent & _).
    unfold questions. by rewrite Hsent.
Qed.

(** X3. All reads and fetches of a request are made while the request is
    received, and no schedule adds to them: nothing for the local library or
    for a version string that does not parse; for a published version, one
    cache lookup followed by one read of the cached package on a hit, or by
    one fetch from the request's repository on a miss. *)
Theorem io_of_request sender id params schedule :
  let libraryName :=
    {| namespace := paramsNamespace params; name := paramsName params |} in
  io (serve sender id params schedule)
  = match paramsVersion params with
    | LocalLibraryVersion => []
    | PublishedLibraryVersion version repositoryUrl =>
        match SemVer_parse version with
        | Success semVerVersion =>
            match findCachedLibrary libraryName semVerVersion with
            | Some libraryPath =>
                [CacheLookup libraryName semVerVersion;
                 PackageRead libraryPath]
            | None =>
                [CacheLookup libraryName semVerVersion;
                 RepositoryFetch repositoryUrl libraryName semVerVersion]
            end
        | Failure _ => []
        end
    end.
Proof.
  intros libraryName. rewrite serve_request, run_io.
  - unfold requestStage_receive. fold libraryName.
    destruct (paramsVersion params) as [|version repositoryUrl]; [done|].
    destruct (SemVer_parse version) as [semVerVersion|]; [|done].
    unfold performing.
    destruct (findCachedLibrary libraryName semVerVersion)
      as [libraryPath|] eqn:Hc.
    + by rewrite (getOrFetchPublishedPackage_hit _ _ _ _ _ Hc).
    + by rewrite (getOrFetchPublishedPackage_miss _ _ _ _ Hc).
  - by destruct (requestStage_receive_Request sender id params initial)
      as [-> _].
Qed.

(** X4. On every schedule the local library manager is asked for the
    package once when the request names the local library, and no actor is
    asked anything when it names a published version. *)
Theorem manager_asked_once sender id params schedule :
  questions (serve sender id params schedule)
  = match paramsVersion params with
    | LocalLibraryVersion =>
        [{| recipient := localLibraryManager;
            payload :=
              GetPackage {| namespace := paramsNamespace params;
                            name := paramsName params |} |}]
    | PublishedLibraryVersion _ _ => []
    end.
Proof.
  rewrite serve_request, run_questions.
  - unfold requestStage_receive, questions.
    destruct (paramsVersion params) as [|version repositoryUrl]; [done|].
    destruct (SemVer_parse version) as [semVerVersion|]; [|done].
    unfold performing.
    by destruct (getOrFetchPublishedPackage _ _ _ (io initial)).
  - by destruct (requestStage_receive_Request sender id params initial)
      as [-> _].
Qed.

(** *** Who answers first *)

(** X5. While the lookup is pending, the first handled message to reach the
    mailbox decides the outcome, whichever actor sent it: once the actor has
    run, the handler has sent what the response stage sends for that message
    right after the request, and nothing else. *)
Theorem first_arrival_decides sender id params from message n late :
  lookupDispatched params →
  handled message = true →
  sent (serve sender id params
          (replicate n Receive ++ Deliver from message :: late))
  = if existsb isReceive late
    then sent (responseStage_receive id sender message
                 (serve sender id params []))
    else sent (serve sender id params []).
Proof.
  intros Hd Hm.
  destruct (requestStage_dispatched sender id params Hd)
    as (Hb & Hmail & _ & _).
  destruct (handled_reply id sender message Hm) as (reply & _ & _ & Hreply).
  rewrite !serve_request, run_app, (run_idle n _ Hmail).
  change (run ?h []) with h.
  set (h1 := requestStage_receive sender (Request id params) initial) in *.
  clearbody h1.
  change (run h1 (Deliver from message :: late))
    with (run (step h1 (Deliver from message)) late).
  destruct (Hreply h1) as (_ & -> & _).
  rewrite (first_message_decides id sender message reply late
             (λ h0, let '(conj Hs (conj Hsent _)) := Hreply h0 in
                    conj Hs Hsent)
             (step h1 (Deliver from message)) from []).
  - by simpl; unfold enqueue; rewrite Hb.
  - simpl. unfold enqueue. by rewrite Hb.
  - simpl. unfold enqueue. by rewrite Hb, Hmail.
Qed.

(** X6. A published version that parses, with the lookup completing before
    anything else reaches the mailbox: the one response is read from the
    cached package when the cache holds the library, from the repository's
    descriptor otherwise. A descriptor yields the result, whose component
    groups are built for the library name the descriptor declares; a failure
    to read or to fetch yields the error the exception maps to, under the
    request's id. *)
Theorem published_lookup_answered
    sender id namespace name version repositoryUrl semVerVersion n late :
  SemVer_parse version = Success semVerVersion →
  let libraryName := {| namespace := namespace; name := name |} in
  let outcome :=
    match findCachedLibrary libraryName semVerVersion with
    | Some libraryPath => readPackage libraryPath
    | None => fetchPackageConfig repositoryUrl libraryName semVerVersion
    end in
  responses
    (serve sender id
       {| paramsNamespace := namespace; paramsName := name;
          paramsVersion := PublishedLibraryVersion version repositoryUrl |}
       (replicate n Receive ++ FutureCompletes :: late))
  = if existsb isReceive late
    then [{| recipient := sender;
             payload :=
               match outcome with
               | Success config =>
                   ResponseResult id
                     {| resultLicense :=
                          unless (isEmpty (configLicense config))
                            (configLicense config);
                        resultComponentGroups :=
                          configComponentGroups config ≫= λ groups,
                            unless
                              (bool_decide (newGroups groups = [])
                               && bool_decide (extendedGroups groups = []))
                              (fromComponentGroups
                                 {| namespace := configNamespace config;
                                    name := moduleName config |}
                                 groups) |}
               | Failure exception =>
                   ResponseError (Some id) (mapException exception)
               end |}]
    else [].
Proof.
  intros Hparse libraryName outcome.
  rewrite serve_request. unfold requestStage_receive. simpl.
  rewrite Hparse. unfold performing. fold libraryName.
  assert (Hfuture :
    getOrFetchPublishedPackage libraryName semVerVersion repositoryUrl
      (io initial)
    = (Try_map responseOf outcome,
       (getOrFetchPublishedPackage libraryName semVerVersion repositoryUrl
          (io initial)).2)).
  { unfold outcome.
    destruct (findCachedLibrary libraryName semVerVersion) eqn:Hc.
    - by rewrite (getOrFetchPublishedPackage_hit _ _ _ _ _ Hc).
    - by rewrite (getOrFetchPublishedPackage_miss _ _ _ _ Hc). }
  rewrite Hfuture. simpl.
  rewrite run_app, run_idle by done.
  apply (first_message_responses id sender
           (pipedMessage (Try_map responseOf outcome)) _ late _ Self []);
    try done.
  - intros h0. by destruct outcome as [config|exception].
  - by destruct outcome.
Qed.


(** X8. How a [GetPackageResponse] is relayed: the licence is [None] exactly
    when the licence string is empty and is the string itself otherwise; the
    component groups are [None] exactly when the response has none or has
    groups with no new and no extended group, and are built from the groups
    and the response's library name otherwise. *)
Theorem relayed_result id replyTo response h :
  ∃ result,
    sent (responseStage_receive id replyTo (PackageResponse response) h)
    = sent h
      ++ [{| recipient := replyTo; payload := ResponseResult id result |}]
    ∧ (resultLicense result = None ↔ license response = "")
    ∧ (∀ relayed, resultLicense result = Some relayed →
                  relayed = license response)
    ∧ (resultComponentGroups result = None
       ↔ componentGroups response = None
         ∨ ∃ groups, componentGroups response = Some groups
                     ∧ newGroups groups = []
                     ∧ extendedGroups groups = [])
    ∧ (∀ relayed, resultComponentGroups result = Some relayed →
         ∃ groups, componentGroups response = Some groups
                   ∧ relayed
                     = fromComponentGroups (libraryName response) groups).
Proof.
  destruct response as [libraryName license [groups|]]; simpl;
    eexists; (split; [reflexivity|]); simpl.
  - repeat split.
    + by destruct license.
    + by intros ->.
    + intros relayed. unfold unless.
      destruct (isEmpty license); intros; by simplify_eq.
    + intros Hnone. right. exists groups. split; [done|].
      destruct groups as [[|? ?] [|? ?]]; by simpl in *.
    + intros [?|(groups' & ? & Hnew & Hext)]; [done|]. simplify_eq.
      by rewrite Hnew, Hext.
    + intros relayed Hsome. exists groups. split; [done|].
      destruct groups as [[|? ?] [|? ?]]; simpl in *; by simplify_eq.
  - repeat split; try done.
    + by destruct license.
    + by intros ->.
    + intros relayed. unfold unless.
      destruct (isEmpty license); intros; by simplify_eq.
    + by left.
Qed.

(** *** Before the request *)

Lemma step_before_request h e :
  isRequestDelivery e = false →
  behavior h = requestStage ∧ sent h = [] ∧ io h = []
  ∧ Forall (λ m, ∀ id params, m.2 ≠ Request id params) (mailbox h) →
  behavior (step h e) = requestStage ∧ sent (step h e) = []
  ∧ io (step h e) = []
  ∧ Forall (λ m, ∀ id params, m.2 ≠ Request id params) (mailbox (step h e)).
Proof.
  intros He (Hb & Hsent & Hio & Hmail).
  destruct e as [from message| | |]; simpl.
  - unfold enqueue. rewrite Hb. simpl. repeat split; try done.
    apply Forall_app. split; [done|]. constructor; [|done].
    intros id params Heq. simpl in Heq. by subst message.
  - destruct (piped h) as [|outcome rest]; [done|].
    unfold enqueue. simpl. rewrite Hb. simpl. repeat split; try done.
    apply Forall_app. split; [done|]. constructor; [|done].
    by destruct outcome.
  - destruct (timer h); try done.
    unfold enqueue. simpl. rewrite Hb. simpl. repeat split; try done.
    apply Forall_app. split; [done|]. by constructor.
  - destruct (mailbox h) as [|[from message] rest] eqn:Hmb.
    { rewrite Hmb. by repeat split. }
    apply Forall_cons in Hmail as [Hhead Hrest].
    unfold receive. simpl. rewrite Hb.
    destruct message as [id params| | | | |];
      try (simpl; by repeat split).
    by destruct (Hhead id params).
Qed.

(** X9. As long as no [library/getPackage] request is delivered, the handler
    stays in the request stage, sends nothing and reads nothing, whatever
    else it is sent: a timeout, a package response or a failure that comes
    before the request is dropped. *)
Theorem no_request_no_action schedule :
  existsb isRequestDelivery schedule = false →
  behavior (run initial schedule) = requestStage
  ∧ sent (run initial schedule) = []
  ∧ io (run initial schedule) = [].
Proof.
  enough (Hinv : ∀ h,
    existsb isRequestDelivery schedule = false →
    behavior h = requestStage ∧ sent h = [] ∧ io h = []
    ∧ Forall (λ m, ∀ id params, m.2 ≠ Request id params) (mailbox h) →
    behavior (run h schedule) = requestStage ∧ sent (run h schedule) = []
    ∧ io (run h schedule) = []).
  { intros Hs. apply Hinv; [done|]. by repeat split. }
  induction schedule as [|e schedule IH]; intros h Hs Hh.
  - by destruct Hh as (? & ? & ? & _).
  - simpl in Hs. apply orb_false_iff in Hs as [He Hs].
    apply (IH (step h e) Hs), step_before_request; done.
Qed.
End Stages.

(** *** The timer after a reply *)

Section TimerAfterReply.
Import LibraryGetPackageHandler.
Context `{Imports} `{!Environment}.
Implicit Types (h : Handler) (e : Event) (schedule : list Event).

Lemma run_stopped_cancelled schedule h :
  behavior h = stopped → timer h = Cancelled →
  timer (run h schedule) = Cancelled.
Proof.
  revert h. induction schedule as [|e schedule IH]; intros h Hb Ht; [done|].
  change (run h (e :: schedule)) with (run (step h e) schedule).
  destruct (step_stopped h e Hb) as (Hb' & _ & _).
  apply IH; [done|]. clear IH Hb'.
  destruct e as [from message| | |]; simpl.
  - unfold enqueue. by rewrite Hb.
  - destruct (piped h); [done|]. unfold enqueue. simpl. by rewrite Hb.
  - by rewrite Ht.
  - destruct (mailbox h) as [|[from message] rest]; [done|].
    unfold receive. simpl. by rewrite Hb.
Qed.

(** X10. When a package response, a manager failure or a failed future is
    the first message in and is received before the timer goes off, the
    handler cancels the timer as it replies: from then on the timer is
    cancelled for good, and no timeout is sent to the stopped handler. *)
Theorem reply_cancels_timer sender id params from message n late :
  lookupDispatched params →
  cancelsTimer message = true →
  timer (serve sender id params
           (replicate n Receive ++ Deliver from message :: Receive :: late))
  = Cancelled.
Proof.
  intros Hd Hm.
  destruct (requestStage_dispatched sender id params Hd)
    as (Hb & Hmail & Ht & _).
  rewrite serve_request, run_app, (run_idle n _ Hmail).
  set (h1 := requestStage_receive sender (Request id params) initial) in *.
  clearbody h1.
  change (run h1 (Deliver from message :: Receive :: late))
    with (run (step (step h1 (Deliver from message)) Receive) late).
  assert (Hstep : behavior (step (step h1 (Deliver from message)) Receive)
                  = stopped
                  ∧ timer (step (step h1 (Deliver from message)) Receive)
                    = Cancelled).
  { simpl. unfold enqueue. rewrite Hb, Hmail. simpl.
    unfold receive. simpl. rewrite ?Hb.
    destruct message as [? ?| |[? ? ?]|?|?|]; try done; simpl;
      by rewrite Ht. }
  destruct Hstep as [Hs Hc]. by apply run_stopped_cancelled.
Qed.
End TimerAfterReply.

(** ** The further theorems at the scenarios *)

Section FurtherWitnesses.
Import LibraryGetPackageHandler Scenarios.Server.

#[local] Abbreviation serve := (@serve imports environment).
#[local] Abbreviation run := (@run imports environment).
#[local] Abbreviation initial := (@initial imports).
#[local] Abbreviation responses := (@responses imports).
#[local] Abbreviation sent := (@sent imports).
#[local] Abbreviation io := (@io imports).
#[local] Abbreviation timer := (@timer imports).
#[local] Abbreviation behavior := (@behavior imports).
#[local] Abbreviation getOrFetchPublishedPackage :=
  (@getOrFetchPublishedPackage imports environment).
#[local] Abbreviation networkCalls := (@networkCalls imports).
#[local] Abbreviation RepositoryFetch := (@RepositoryFetch imports).
#[local] Abbreviation ResponseResult := (@ResponseResult imports).
#[local] Abbreviation ResponseError := (@ResponseError imports).
#[local] Abbreviation GetPackage := (@GetPackage imports).
#[local] Abbreviation PackageResponse := (@PackageResponse imports).
#[local] Abbreviation RequestTimeout := (@RequestTimeout imports).
#[local] Abbreviation Deliver := (@Deliver imports).
#[local] Abbreviation Receive := (@Receive imports).
#[local] Abbreviation TimerFires := (@TimerFires imports).
#[local] Abbreviation FutureCompletes := (@FutureCompletes imports).
#[local] Abbreviation requestStage := (@requestStage imports).
#[local] Abbreviation Cancelled := (@Cancelled).

(** The local library manager answers a request for the local
    [Standard.Table] before the timer goes off. *)
Lemma first_arrival_decides_witness :
  sent (serve client 1 (getPackage standardTable LocalLibraryVersion)
          (replicate 1 Receive
             ++ Deliver (Actor 0) (PackageResponse (responseOf tableConfig))
             :: [TimerFires; Receive; Receive]))
  = [{| recipient := Actor 0; payload := GetPackage standardTable |};
     {| recipient := client;
        payload :=
          ResponseResult 1
            {| resultLicense := Some "MIT";
               resultComponentGroups := None |} |}].
Proof.
  apply (@first_arrival_decides imports environment client 1
           (getPackage standardTable LocalLibraryVersion) (Actor 0)
           (PackageResponse (responseOf tableConfig)) 1
           [TimerFires; Receive; Receive]).
  - vm_compute. exact I.
  - reflexivity.
Defined.

(** The damaged [Standard.Broken 1.2.0] of the cache. *)
Lemma published_lookup_answered_witness :
  responses
    (serve client 1
       {| paramsNamespace := "Standard"; paramsName := "Broken";
          paramsVersion := PublishedLibraryVersion "1.2.0" repository |}
       (replicate 0 Receive ++ FutureCompletes :: [Receive]))
  = [{| recipient := client;
        payload := ResponseError (Some 1) "package.yaml: cannot parse" |}].
Proof.
  apply (@published_lookup_answered imports environment client 1
           "Standard" "Broken" "1.2.0" repository "1.2.0" 0 [Receive]).
  reflexivity.
Defined.


(** A timeout and a package response that come before any request. *)
Lemma no_request_no_action_witness :
  let early :=
    [TimerFires; Deliver (Actor 0) RequestTimeout; Receive;
     Deliver (Actor 0) (PackageResponse (responseOf tableConfig)); Receive;
     FutureCompletes] in
  behavior (run initial early) = requestStage
  ∧ sent (run initial early) = []
  ∧ io (run initial early) = [].
Proof.
  apply (@no_request_no_action imports environment
           [TimerFires; Deliver (Actor 0) RequestTimeout; Receive;
            Deliver (Actor 0) (PackageResponse (responseOf tableConfig));
            Receive; FutureCompletes]).
  reflexivity.
Defined.

(** The local library manager answers first; the timer goes off later. *)
Lemma reply_cancels_timer_witness :
  timer (serve client 1 (getPackage standardTable LocalLibraryVersion)
           (replicate 2 Receive
              ++ Deliver (Actor 0) (PackageResponse (responseOf tableConfig))
              :: Receive :: [TimerFires; Receive]))
  = Cancelled.
Proof.
  apply (@reply_cancels_timer imports environment client 1
           (getPackage standardTable LocalLibraryVersion) (Actor 0)
           (PackageResponse (responseOf tableConfig)) 2
           [TimerFires; Receive]).
  - vm_compute. exact I.
  - reflexivity.
Defined.

End FurtherWitnesses.
